(** * Field pointer registry of code_saturne (base/cs_field_pointer.cpp)

    A shallow embedding of the enumerated field pointer registry:
    the file-scope variables [_n_pointers], [_field_pointer],
    [_sublist_size] and the global [cs_glob_field_pointers], with the
    functions [_init_pointers], [cs_field_pointer_ensure_init],
    [cs_field_pointer_destroy_all], [cs_field_pointer_map] and
    [cs_field_pointer_map_indexed].

    Conventions of the embedding:
    - a C array obtained from [CS_MALLOC] is a list of cells; a cell is
      [None] while its content is indeterminate and [Some v] once written;
    - every array access is checked: an access outside the block, through
      a null pointer or to an indeterminate cell aborts the run with a
      [fault], as does a failed [assert];
    - [int] values are integers of [Z] in the 32-bit signed range, and the
      elements of [_sublist_size] are [short int]: a store to them narrows
      the value to 16 bits, two's complement;
    - allocation itself never fails (the abort of [CS_MALLOC] on an
      exhausted heap is outside the model). *)

From Stdlib Require Import ZArith Lia Bool.
From Stdlib Require String.
From stdpp Require Import base numbers option list.
Import String.StringSyntax.
Delimit Scope string_scope with string.

Local Open Scope Z_scope.

(** ** Faults and the error monad *)

Inductive fault :=
  | assert_failed        (* assert(...) does not hold *)
  | out_of_bounds        (* access outside an allocated block *)
  | null_pointer         (* access through a null pointer *)
  | indeterminate_read   (* read of a cell never written *)
  | signed_overflow      (* int arithmetic leaves the int range *)
  | invalid_free.        (* CS_FREE of a pointer that is not a heap block *)

Inductive outcome (A : Type) :=
  | Done (a : A)
  | Abort (x : fault).
Arguments Done {A} a.
Arguments Abort {A} x.

Definition bind {A B} (c : outcome A) (k : A -> outcome B) : outcome B :=
  match c with
  | Done a => k a
  | Abort x => Abort x
  end.

Notation "'do' x <- c ; k" := (bind c (fun x => k))
  (at level 10, x name, c at level 100, k at level 200).

Definition assert (b : bool) : outcome unit :=
  if b then Done tt else Abort assert_failed.

Notation "'check' b ; k" := (bind (assert b) (fun _ => k))
  (at level 10, b at level 100, k at level 200).

(** ** Machine integers *)

Definition INT_MAX : Z := 2147483647.
Definition SHRT_MAX : Z := 32767.

(** [int] addition: overflow is undefined behaviour, modelled as a fault. *)
Definition int_add (a b : Z) : outcome Z :=
  if (a + b <=? INT_MAX) && (- INT_MAX - 1 <=? a + b)
  then Done (a + b) else Abort signed_overflow.

(** Conversion of an [int] to [short int], as the store
    [_sublist_size[e] = n_sub] performs it: the value is reduced modulo
    2^16 into the range of a 16-bit two's complement integer (what C++20
    prescribes and what compilers did before it). *)
Definition to_short (z : Z) : Z := (z + 32768) mod 65536 - 32768.

(** ** Memory blocks *)

Abbreviation block A := (list (option A)).

(** Modelled from the spec: the allocation macros [CS_MALLOC] and
    [CS_REALLOC] of base/cs_mem.h, which is not part of the sources at
    hand; the registry uses them as opaque allocate and reallocate
    services. [CS_MALLOC] yields a block of [n] indeterminate cells;
    [CS_REALLOC] yields a block of [n] cells that keeps the common prefix,
    the cells beyond the old size being indeterminate. *)
Definition CS_MALLOC {A} (n : Z) : block A := replicate (Z.to_nat n) None.

(** Modelled from the spec: [CS_REALLOC] of base/cs_mem.h, as described
    above. *)
Definition CS_REALLOC {A} (b : block A) (n : Z) : block A :=
  resize (Z.to_nat n) None b.

Definition rd {A} (b : block A) (i : Z) : outcome A :=
  if i <? 0 then Abort out_of_bounds else
  match b !! Z.to_nat i with
  | Some (Some v) => Done v
  | Some None => Abort indeterminate_read
  | None => Abort out_of_bounds
  end.

Definition wr {A} (b : block A) (i : Z) (v : A) : outcome (block A) :=
  if i <? 0 then Abort out_of_bounds else
  match b !! Z.to_nat i with
  | Some _ => Done (<[Z.to_nat i := Some v]> b)
  | None => Abort out_of_bounds
  end.

Definition deref {A} (ptr : option A) : outcome A :=
  match ptr with
  | Some b => Done b
  | None => Abort null_pointer
  end.

(** ** Data model *)

(** [cs_field_t *]: an opaque handle on a field owned elsewhere. *)
Inductive cs_field_p :=
  | nullptr
  | field_ref (id : nat).

(** [cs_field_t **p] of a slot: it aims at the slot's own member [f]
    ([p == &f]), owns a heap array, or is null (after [CS_FREE]). *)
Inductive sub_ptr :=
  | own_f
  | heap (a : block cs_field_p)
  | p_null.

(** The structure is declared in base/cs_field_pointer.h, which is not
    part of the sources at hand; its members [f] and [p] are the ones the
    functions use. *)
Record cs_field_pointer_array_t := {
  f : cs_field_p;
  p : sub_ptr
}.

(** [cs_glob_field_pointers] is either null or an alias of
    [_field_pointer]. *)
Inductive glob_ptr :=
  | glob_null
  | glob_field_pointer.

(** The variables of the compilation unit. *)
Record globals := {
  _n_pointers : Z;
  _field_pointer : option (block cs_field_pointer_array_t);
  _sublist_size : option (block Z);
  cs_glob_field_pointers : glob_ptr
}.

(** State at program start: the static initialisers. *)
Definition startup : globals :=
  {| _n_pointers := 0;
     _field_pointer := None;
     _sublist_size := None;
     cs_glob_field_pointers := glob_null |}.

(** Accesses [_field_pointer[i]] and [_sublist_size[i]]. *)
Definition load_slot (st : globals) (i : Z) : outcome cs_field_pointer_array_t :=
  do fp <- deref (_field_pointer st) ; rd fp i.

Definition store_slot (st : globals) (i : Z) (s : cs_field_pointer_array_t)
  : outcome globals :=
  do fp <- deref (_field_pointer st) ;
  do fp' <- wr fp i s ;
  Done {| _n_pointers := _n_pointers st;
          _field_pointer := Some fp';
          _sublist_size := _sublist_size st;
          cs_glob_field_pointers := cs_glob_field_pointers st |}.

Definition load_size (st : globals) (i : Z) : outcome Z :=
  do ss <- deref (_sublist_size st) ; rd ss i.

Definition store_size (st : globals) (i : Z) (n : Z) : outcome globals :=
  do ss <- deref (_sublist_size st) ;
  do ss' <- wr ss i n ;
  Done {| _n_pointers := _n_pointers st;
          _field_pointer := _field_pointer st;
          _sublist_size := Some ss';
          cs_glob_field_pointers := cs_glob_field_pointers st |}.

(** [s.p[i]] and [s.p[i] = v]; when [p] aims at [f], element 0 is [f]
    itself and any other element lies outside the object. *)
Definition p_load (s : cs_field_pointer_array_t) (i : Z) : outcome cs_field_p :=
  match p s with
  | own_f => if i =? 0 then Done (f s) else Abort out_of_bounds
  | heap a => rd a i
  | p_null => Abort null_pointer
  end.

Definition p_store (s : cs_field_pointer_array_t) (i : Z) (v : cs_field_p)
  : outcome cs_field_pointer_array_t :=
  match p s with
  | own_f => if i =? 0 then Done {| f := v; p := own_f |} else Abort out_of_bounds
  | heap a => do a' <- wr a i v ; Done {| f := f s; p := heap a' |}
  | p_null => Abort null_pointer
  end.

Section Registry.

(** The number of enumerators, [CS_FIELD_N_POINTERS], comes from
    base/cs_field_pointer.h; it is a parameter here. *)
Variable CS_FIELD_N_POINTERS : nat.

(** Loop of [_init_pointers]: [k] iterations remain, the counter is [i];
    the two members of [_field_pointer[i]] are stored together. *)
Fixpoint _init_loop (k : nat) (i : Z)
    (fp : block cs_field_pointer_array_t) (ss : block Z)
  : outcome (block cs_field_pointer_array_t * block Z) :=
  match k with
  | O => Done (fp, ss)
  | S k' =>
      do fp' <- wr fp i {| f := nullptr; p := own_f |} ;
      do ss' <- wr ss i 0 ;
      _init_loop k' (i + 1) fp' ss'
  end.

Definition _init_pointers (st : globals) : outcome globals :=
  check (bool_decide (_field_pointer st = None)) ;
  let n := Z.of_nat CS_FIELD_N_POINTERS in
  do r <- _init_loop (Z.to_nat (n - 0)) 0 (CS_MALLOC n) (CS_MALLOC n) ;
  Done {| _n_pointers := n;
          _field_pointer := Some (fst r);
          _sublist_size := Some (snd r);
          cs_glob_field_pointers := glob_field_pointer |}.

Definition cs_field_pointer_ensure_init (st : globals) : outcome globals :=
  match _field_pointer st with
  | None => _init_pointers st
  | Some _ => Done st
  end.

(** Modelled from the spec: the macro [CS_FREE] of base/cs_mem.h, which is
    not part of the sources at hand. It releases the block its argument
    points to and resets the pointer to null; releasing a null pointer does
    nothing. Here it is applied to the member [p] of a slot, where a
    pointer to the slot's own [f] is not a heap block. *)
Definition CS_FREE_p (s : cs_field_pointer_array_t)
  : outcome cs_field_pointer_array_t :=
  match p s with
  | own_f => Abort invalid_free
  | heap _ | p_null => Done {| f := f s; p := p_null |}
  end.

(** Loop of [cs_field_pointer_destroy_all]. *)
Fixpoint _destroy_loop (k : nat) (i : Z) (st : globals) : outcome globals :=
  match k with
  | O => Done st
  | S k' =>
      do sz <- load_size st i ;
      do st1 <- (if 1 <? sz
                 then do s <- load_slot st i ;
                      do s' <- CS_FREE_p s ;
                      store_slot st i s'
                 else Done st) ;
      _destroy_loop k' (i + 1) st1
  end.

(** [CS_FREE(_field_pointer)] and [CS_FREE(_sublist_size)] leave both
    pointers null ([CS_FREE] as above). *)
Definition cs_field_pointer_destroy_all (st : globals) : outcome globals :=
  do st1 <- _destroy_loop (Z.to_nat (_n_pointers st - 0)) 0 st ;
  Done {| _n_pointers := _n_pointers st1;
          _field_pointer := None;
          _sublist_size := None;
          cs_glob_field_pointers := glob_null |}.

(** Loop [for (int i = _sublist_size[e]; i < n_sub; i++) p[i] = nullptr]. *)
Fixpoint null_fill (k : nat) (i : Z) (a : block cs_field_p)
  : outcome (block cs_field_p) :=
  match k with
  | O => Done a
  | S k' => do a' <- wr a i nullptr ; null_fill k' (i + 1) a'
  end.

(** The enumerator [e] is a value of the enumeration
    [cs_field_pointer_id_t], hence a natural number. An assignment to one
    member of [_field_pointer[e]] is a store of the slot with the other
    member as read; [sz] is [_sublist_size[e]], which no statement changes
    before its last use. *)
Definition cs_field_pointer_map_indexed
    (e : nat) (index : Z) (h : cs_field_p) (st : globals) : outcome globals :=
  check (0 <=? index) ;
  do st <- (match _field_pointer st with
            | None => _init_pointers st
            | Some _ => Done st
            end) ;
  check (Z.of_nat e <? _n_pointers st) ;
  do sz <- load_size st (Z.of_nat e) ;
  if (index =? 0) && (sz <=? 1) then
    do s <- load_slot st (Z.of_nat e) ;
    do st <- store_slot st (Z.of_nat e) {| f := h; p := p s |} ;
    store_size st (Z.of_nat e) 1
  else
    do st <- (if sz <=? index then
                do n_sub <- int_add index 1 ;
                do s <- load_slot st (Z.of_nat e) ;
                let a := match p s with
                         | own_f => CS_MALLOC n_sub
                         | heap a0 => CS_REALLOC a0 n_sub
                         | p_null => CS_MALLOC n_sub (* realloc of null *)
                         end in
                do a <- wr a 0 (f s) ;
                do a <- null_fill (Z.to_nat (n_sub - sz)) sz a ;
                do st <- store_slot st (Z.of_nat e) {| f := f s; p := heap a |} ;
                store_size st (Z.of_nat e) (to_short n_sub)
              else Done st) ;
    do s <- load_slot st (Z.of_nat e) ;
    do s' <- p_store s index h ;
    store_slot st (Z.of_nat e) s'.

Definition cs_field_pointer_map (e : nat) (h : cs_field_p) (st : globals)
  : outcome globals :=
  cs_field_pointer_map_indexed e 0 h st.

(** Modelled from the spec: the read access of base/cs_field_pointer.h
    (the macro [CS_FI_(e, i)]), which is not part of the sources at hand.
    It fetches, through the global [cs_glob_field_pointers], the handle at
    sub-index [i] of slot [e]: the element [i] of what the slot's [p]
    points to. The direct lookup of [e] is the lookup at sub-index 0. *)
Definition CS_FI_ (st : globals) (e : nat) (i : Z) : outcome cs_field_p :=
  match cs_glob_field_pointers st with
  | glob_null => Abort null_pointer
  | glob_field_pointer =>
      do s <- load_slot st (Z.of_nat e) ; p_load s i
  end.

(** ** Sequences of calls *)

Inductive call :=
  | ensure_init
  | destroy_all
  | map (e : nat) (h : cs_field_p)
  | map_indexed (e : nat) (index : Z) (h : cs_field_p).

Definition exec (c : call) (st : globals) : outcome globals :=
  match c with
  | ensure_init => cs_field_pointer_ensure_init st
  | destroy_all => cs_field_pointer_destroy_all st
  | map e h => cs_field_pointer_map e h st
  | map_indexed e index h => cs_field_pointer_map_indexed e index h st
  end.

Fixpoint run (cs : list call) (st : globals) : outcome globals :=
  match cs with
  | [] => Done st
  | c :: cs' => do st' <- exec c st ; run cs' st'
  end.

(** ** Notions used by the statements *)

(** A slot as [_init_pointers] leaves it. *)
Definition slot0 : cs_field_pointer_array_t := {| f := nullptr; p := own_f |}.

(** The registry right after its first initialisation. *)
Definition fresh : globals :=
  {| _n_pointers := Z.of_nat CS_FIELD_N_POINTERS;
     _field_pointer := Some (replicate CS_FIELD_N_POINTERS (Some slot0));
     _sublist_size := Some (replicate CS_FIELD_N_POINTERS (Some 0));
     cs_glob_field_pointers := glob_field_pointer |}.

Definition initialized (st : globals) : Prop := _field_pointer st <> None.

(** The registry once [if (_field_pointer == nullptr) _init_pointers()]
    has run. *)
Definition ensured (st : globals) : globals :=
  match _field_pointer st with
  | None => fresh
  | Some _ => st
  end.

(** States the program can be in: those some sequence of calls reaches
    from program start without aborting. *)
Definition reachable (st : globals) : Prop :=
  exists cs, run cs startup = Done st.

(** The sub-index of the call leaves room for the width [index + 1] in a
    [short int]. *)
Definition fits_short (c : call) : bool :=
  match c with
  | map_indexed _ index _ => index <? SHRT_MAX
  | _ => true
  end.

Definition reachable_short (st : globals) : Prop :=
  exists cs, forallb fits_short cs = true /\ run cs startup = Done st.

(** Calls that map or initialise, as opposed to the teardown. *)
Definition is_mapping (c : call) : bool :=
  match c with
  | destroy_all => false
  | _ => true
  end.

(** The slot's [p] aims at its own [f] (inline representation). *)
Definition inline (s : cs_field_pointer_array_t) : Prop := p s = own_f.

(** Number of elements of the heap array [p] refers to, if any. *)
Definition heap_length (s : cs_field_pointer_array_t) : option Z :=
  match p s with
  | heap a => Some (Z.of_nat (length a))
  | _ => None
  end.

(** What lines 243-267 of the source do to [_field_pointer[e]] and
    [_sublist_size[e]], seen as a function of these two values. *)
Definition slot_map_indexed (sz : Z) (s : cs_field_pointer_array_t)
    (index : Z) (h : cs_field_p) : outcome (Z * cs_field_pointer_array_t) :=
  if (index =? 0) && (sz <=? 1) then Done (1, {| f := h; p := p s |})
  else
    do r <- (if sz <=? index then
               do n_sub <- int_add index 1 ;
               let a := match p s with
                        | own_f => CS_MALLOC n_sub
                        | heap a0 => CS_REALLOC a0 n_sub
                        | p_null => CS_MALLOC n_sub
                        end in
               do a <- wr a 0 (f s) ;
               do a <- null_fill (Z.to_nat (n_sub - sz)) sz a ;
               Done (to_short n_sub, {| f := f s; p := heap a |})
             else Done (sz, s)) ;
    do s' <- p_store (snd r) index h ;
    Done (fst r, s').

(** The array [a'] a growing call leaves in the slot [s] of width [sz]:
    [index + 1] cells, the handle at [index], null from the old width up
    to [index], the member [f] at 0, the former cells in between. *)
Definition grown (sz index : Z) (s : cs_field_pointer_array_t)
    (h : cs_field_p) (a' : block cs_field_p) : Prop :=
  length a' = Z.to_nat (index + 1) /\
  a' !! Z.to_nat index = Some (Some h) /\
  (forall j : nat, sz <= Z.of_nat j < index -> a' !! j = Some (Some nullptr)) /\
  (0 < sz -> a' !! 0%nat = Some (Some (f s))) /\
  (forall j : nat, 0 < Z.of_nat j < sz ->
     a' !! j = match p s with
               | heap a => resize (Z.to_nat (index + 1)) None a !! j
               | _ => Some None
               end).

Definition with_arrays (st : globals)
    (fp : block cs_field_pointer_array_t) (ss : block Z) : globals :=
  {| _n_pointers := _n_pointers st;
     _field_pointer := Some fp;
     _sublist_size := Some ss;
     cs_glob_field_pointers := cs_glob_field_pointers st |}.

(** Invariant of a slot and its width in every reachable state. *)
Definition slot_sound (sz : Z) (s : cs_field_pointer_array_t) : Prop :=
  match p s with
  | own_f => (sz = 0 /\ f s = nullptr) \/ sz = 1
  | heap a =>
      sz <= Z.of_nat (length a) /\ (1 <= length a)%nat /\ Forall is_Some a
  | p_null => False
  end.

(** Invariant as long as every width fits a [short int]. *)
Definition slot_tight (sz : Z) (s : cs_field_pointer_array_t) : Prop :=
  match p s with
  | own_f => (sz = 0 /\ f s = nullptr) \/ sz = 1
  | heap a =>
      1 < sz <= SHRT_MAX /\ Z.of_nat (length a) = sz /\ Forall is_Some a
  | p_null => False
  end.

Definition cell_rel (P : Z -> cs_field_pointer_array_t -> Prop)
    (osz : option Z) (os : option cs_field_pointer_array_t) : Prop :=
  exists sz s, osz = Some sz /\ os = Some s /\ P sz s.

Definition registry_inv (P : Z -> cs_field_pointer_array_t -> Prop)
    (st : globals) : Prop :=
  match _field_pointer st, _sublist_size st with
  | None, None => cs_glob_field_pointers st = glob_null
  | Some fp, Some ss =>
      _n_pointers st = Z.of_nat CS_FIELD_N_POINTERS /\
      cs_glob_field_pointers st = glob_field_pointer /\
      length fp = CS_FIELD_N_POINTERS /\
      Forall2 (cell_rel P) ss fp
  | _, _ => False
  end.

End Registry.

(** ** Concrete registries *)

(** A registry of ten enumerators in which slot 0 was mapped directly. *)
Definition st_direct : globals :=
  Eval vm_compute in
    match run 10 [map 0 (field_ref 1)] startup with
    | Done st => st
    | Abort _ => startup
    end.

(** A registry of ten enumerators in which slot 0 is expanded to width 2. *)
Definition st_expanded : globals :=
  Eval vm_compute in
    match run 10 [map_indexed 0 1 (field_ref 1)] startup with
    | Done st => st
    | Abort _ => startup
    end.

(** Slot 0 expanded, then its position 0 mapped again. *)
Definition st_remapped : globals :=
  Eval vm_compute in
    match run 10 [map 0 (field_ref 1); map_indexed 0 1 (field_ref 2);
                  map_indexed 0 0 (field_ref 3)] startup with
    | Done st => st
    | Abort _ => startup
    end.

(** Slot 0 mapped directly, then expanded to width 2. *)
Definition st_remapped_step : globals :=
  Eval vm_compute in
    match run 10 [map 0 (field_ref 1); map_indexed 0 1 (field_ref 2)] startup with
    | Done st => st
    | Abort _ => startup
    end.

(** Slot 0 expanded to width 2, its position 0 mapped again and the slot
    grown to width 5. *)
Definition st_expanded_later : globals :=
  Eval vm_compute in
    match run 10 [map_indexed 0 1 (field_ref 1); map 0 (field_ref 3);
                  map_indexed 0 4 (field_ref 4)] startup with
    | Done st => st
    | Abort _ => startup
    end.


(** ** The mapping helpers *)

(** The enumerators the helpers name through [CS_ENUMF_]; the enumeration
    [cs_field_pointer_id_t] itself is declared in
    base/cs_field_pointer.h. *)
Module Enumf.
Inductive name :=
  | dt | hybrid_blend | h | t | cp | lambda | th_diff | vism | poro | t_poro
  | t_b
  | pot_t | ym_w | ntdrp | chemistry.
End Enumf.

(** Read of a caller-supplied [const int] array. *)
Definition rd_const (a : list Z) (i : Z) : outcome Z :=
  if i <? 0 then Abort out_of_bounds else
  match a !! Z.to_nat i with
  | Some v => Done v
  | None => Abort out_of_bounds
  end.

Section Helpers.

Variable CS_FIELD_N_POINTERS : nat.

(** The value of each enumerator (the macro [CS_ENUMF_] of
    base/cs_field_pointer.h), a parameter here. *)
Variable CS_ENUMF_ : Enumf.name -> nat.

(** Modelled from the spec: the name-lookup service of the field
    subsystem (base/cs_field.h), consumed and not implemented by this
    file: [cs_field_by_name_try] yields the handle of the field of that
    name or the null handle when there is none; [cs_field_by_id] yields the
    handle of the field of that id, or aborts. Neither touches the
    registry. *)
Variable cs_field_by_name_try : String.string -> cs_field_p.
Variable cs_field_by_id : Z -> outcome cs_field_p.

Definition cs_field_pointer_map_base (st : globals) : outcome globals :=
  do st <- cs_field_pointer_map CS_FIELD_N_POINTERS (CS_ENUMF_ Enumf.dt)
             (cs_field_by_name_try "dt"%string) st ;
  do st <- cs_field_pointer_map CS_FIELD_N_POINTERS (CS_ENUMF_ Enumf.hybrid_blend)
             (cs_field_by_name_try "hybrid_blend"%string) st ;
  do st <- cs_field_pointer_map CS_FIELD_N_POINTERS (CS_ENUMF_ Enumf.h)
             (cs_field_by_name_try "enthalpy"%string) st ;
  do st <- cs_field_pointer_map CS_FIELD_N_POINTERS (CS_ENUMF_ Enumf.t)
             (cs_field_by_name_try "temperature"%string) st ;
  do st <- cs_field_pointer_map CS_FIELD_N_POINTERS (CS_ENUMF_ Enumf.cp)
             (cs_field_by_name_try "specific_heat"%string) st ;
  do st <- cs_field_pointer_map CS_FIELD_N_POINTERS (CS_ENUMF_ Enumf.lambda)
             (cs_field_by_name_try "thermal_conductivity"%string) st ;
  do st <- cs_field_pointer_map CS_FIELD_N_POINTERS (CS_ENUMF_ Enumf.th_diff)
             (cs_field_by_name_try "thermal_diffusivity"%string) st ;
  do st <- cs_field_pointer_map CS_FIELD_N_POINTERS (CS_ENUMF_ Enumf.vism)
             (cs_field_by_name_try "mesh_viscosity"%string) st ;
  do st <- cs_field_pointer_map CS_FIELD_N_POINTERS (CS_ENUMF_ Enumf.poro)
             (cs_field_by_name_try "porosity"%string) st ;
  cs_field_pointer_map CS_FIELD_N_POINTERS (CS_ENUMF_ Enumf.t_poro)
    (cs_field_by_name_try "tensorial_porosity"%string) st.

Definition cs_field_pointer_map_boundary (st : globals) : outcome globals :=
  cs_field_pointer_map CS_FIELD_N_POINTERS (CS_ENUMF_ Enumf.t_b)
    (cs_field_by_name_try "boundary_temperature"%string) st.

(** Loop of [cs_field_pointer_map_atmospheric]: [k] iterations remain, the
    counter is [i]. *)
Fixpoint _species_loop (k : nat) (i : Z) (species_f_id : list Z)
    (st : globals) : outcome globals :=
  match k with
  | O => Done st
  | S k' =>
      do id <- rd_const species_f_id i ;
      do fld <- cs_field_by_id id ;
      do st' <- cs_field_pointer_map_indexed CS_FIELD_N_POINTERS
                  (CS_ENUMF_ Enumf.chemistry) i fld st ;
      _species_loop k' (i + 1) species_f_id st'
  end.

Definition cs_field_pointer_map_atmospheric
    (n_chem_species : Z) (species_f_id : list Z) (st : globals)
  : outcome globals :=
  do st <- cs_field_pointer_map CS_FIELD_N_POINTERS (CS_ENUMF_ Enumf.pot_t)
             (cs_field_by_name_try "temperature"%string) st ;
  do st <- cs_field_pointer_map CS_FIELD_N_POINTERS (CS_ENUMF_ Enumf.ym_w)
             (cs_field_by_name_try "ym_water"%string) st ;
  do st <- cs_field_pointer_map CS_FIELD_N_POINTERS (CS_ENUMF_ Enumf.ntdrp)
             (cs_field_by_name_try "number_of_droplets"%string) st ;
  _species_loop (Z.to_nat (n_chem_species - 0)) 0 species_f_id st.

(** The direct mappings of the helpers, as tables. *)
Definition base_table : list (nat * cs_field_p) :=
  [ (CS_ENUMF_ Enumf.dt, cs_field_by_name_try "dt"%string);
    (CS_ENUMF_ Enumf.hybrid_blend, cs_field_by_name_try "hybrid_blend"%string);
    (CS_ENUMF_ Enumf.h, cs_field_by_name_try "enthalpy"%string);
    (CS_ENUMF_ Enumf.t, cs_field_by_name_try "temperature"%string);
    (CS_ENUMF_ Enumf.cp, cs_field_by_name_try "specific_heat"%string);
    (CS_ENUMF_ Enumf.lambda, cs_field_by_name_try "thermal_conductivity"%string);
    (CS_ENUMF_ Enumf.th_diff, cs_field_by_name_try "thermal_diffusivity"%string);
    (CS_ENUMF_ Enumf.vism, cs_field_by_name_try "mesh_viscosity"%string);
    (CS_ENUMF_ Enumf.poro, cs_field_by_name_try "porosity"%string);
    (CS_ENUMF_ Enumf.t_poro, cs_field_by_name_try "tensorial_porosity"%string) ].

Definition atmospheric_table : list (nat * cs_field_p) :=
  [ (CS_ENUMF_ Enumf.pot_t, cs_field_by_name_try "temperature"%string);
    (CS_ENUMF_ Enumf.ym_w, cs_field_by_name_try "ym_water"%string);
    (CS_ENUMF_ Enumf.ntdrp, cs_field_by_name_try "number_of_droplets"%string) ].

End Helpers.

(** ** Further notions used by the statements *)

(** A call that never asks for a sub-index above 0. *)
Definition is_direct (c : call) : bool :=
  match c with
  | map_indexed _ index _ => index =? 0
  | _ => true
  end.

(** A slot that was never expanded. *)
Definition slot_flat (sz : Z) (s : cs_field_pointer_array_t) : Prop :=
  p s = own_f /\ ((sz = 0 /\ f s = nullptr) \/ sz = 1).

(** Registry [st'] reads as [st] does in every slot other than [e0]. *)
Definition same_elsewhere (e0 : nat) (st st' : globals) : Prop :=
  forall e, e <> e0 ->
    load_slot st' (Z.of_nat e) = load_slot st (Z.of_nat e) /\
    load_size st' (Z.of_nat e) = load_size st (Z.of_nat e) /\
    forall i, CS_FI_ st' e i = CS_FI_ st e i.

(** The calls [map(e, h)] for the pairs of a table, in order. *)
Definition map_calls (l : list (nat * cs_field_p)) : list call :=
  (fun eh => map (fst eh) (snd eh)) <$> l.

(** Concrete stand-ins for the parameters of the helpers. *)
Definition demo_enumf (x : Enumf.name) : nat :=
  match x with
  | Enumf.dt => 0 | Enumf.hybrid_blend => 1 | Enumf.h => 2 | Enumf.t => 3
  | Enumf.cp => 4 | Enumf.lambda => 5 | Enumf.th_diff => 6 | Enumf.vism => 7
  | Enumf.poro => 8 | Enumf.t_poro => 9 | Enumf.t_b => 10
  | Enumf.pot_t => 11 | Enumf.ym_w => 12 | Enumf.ntdrp => 13
  | Enumf.chemistry => 14
  end%nat.

Definition demo_by_name (s : String.string) : cs_field_p :=
  field_ref (String.length s).

Definition demo_by_id (id : Z) : outcome cs_field_p :=
  if 0 <=? id then Done (field_ref (Z.to_nat id)) else Abort assert_failed.

(** A registry of twenty enumerators whose chemistry slot (enumerator 14
    of [demo_enumf]) holds two species. *)
Definition st_chem : globals :=
  Eval vm_compute in
    match run 20 [map_indexed 14 0 (field_ref 5); map_indexed 14 1 (field_ref 6)]
            startup with
    | Done st => st
    | Abort _ => startup
    end.

(** ** Basic facts on blocks *)

Lemma bind_Done {A B} (c : outcome A) (k : A -> outcome B) (b : B) :
  bind c k = Done b -> exists a, c = Done a /\ k a = Done b.
Proof. destruct c as [a|x]; simpl; [eauto | discriminate]. Qed.

Lemma rd_nat {A} (b : block A) (e : nat) (v : A) :
  b !! e = Some (Some v) -> rd b (Z.of_nat e) = Done v.
Proof.
  intros H. unfold rd.
  destruct (Z.ltb_spec (Z.of_nat e) 0); [lia |].
  now rewrite Nat2Z.id, H.
Qed.

Lemma wr_nat {A} (b : block A) (e : nat) (v : A) :
  (e < length b)%nat -> wr b (Z.of_nat e) v = Done (<[e := Some v]> b).
Proof.
  intros H. unfold wr.
  destruct (Z.ltb_spec (Z.of_nat e) 0); [lia |].
  rewrite Nat2Z.id.
  destruct (lookup_lt_is_Some_2 b e H) as [x ->]. reflexivity.
Qed.

Lemma wr_Z {A} (b : block A) (i : Z) (v : A) :
  0 <= i -> (Z.to_nat i < length b)%nat ->
  wr b i v = Done (<[Z.to_nat i := Some v]> b).
Proof.
  intros H0 H. rewrite <- (Z2Nat.id i) at 1 by exact H0. now apply wr_nat.
Qed.

Lemma rd_Done {A} (b : block A) (i : Z) (v : A) :
  rd b i = Done v -> 0 <= i /\ b !! Z.to_nat i = Some (Some v).
Proof.
  unfold rd. destruct (Z.ltb_spec i 0); [discriminate |].
  destruct (b !! Z.to_nat i) as [[w|]|]; try discriminate.
  intros [= ->]. split; [lia | reflexivity].
Qed.

Lemma wr_Done {A} (b b' : block A) (i : Z) (v : A) :
  wr b i v = Done b' ->
  0 <= i /\ (Z.to_nat i < length b)%nat /\ b' = <[Z.to_nat i := Some v]> b.
Proof.
  unfold wr. destruct (Z.ltb_spec i 0); [discriminate |].
  destruct (b !! Z.to_nat i) as [w|] eqn:E; [| discriminate].
  intros [= <-]. apply lookup_lt_Some in E. repeat split; [lia | exact E].
Qed.

(** The zeroing loop writes exactly the cells [i .. i+k-1]. *)
Lemma null_fill_spec (k : nat) :
  forall (i : nat) (a : block cs_field_p),
    (i + k <= length a)%nat ->
    exists a', null_fill k (Z.of_nat i) a = Done a' /\
      length a' = length a /\
      forall j : nat,
        a' !! j = if bool_decide (i <= j < i + k)%nat
                  then Some (Some nullptr) else a !! j.
Proof.
  induction k as [|k IH]; intros i a Hlen; simpl.
  - exists a. repeat split. intros j.
    rewrite bool_decide_eq_false_2 by lia. reflexivity.
  - rewrite wr_nat by lia. simpl.
    replace (Z.of_nat i + 1) with (Z.of_nat (S i)) by lia.
    destruct (IH (S i) (<[i := Some nullptr]> a)) as (a' & -> & Hl & Hj).
    { rewrite length_insert. lia. }
    exists a'. rewrite length_insert in Hl. repeat split; [exact Hl |].
    intros j. rewrite Hj.
    destruct (decide (j = i)) as [-> | Hne].
    + rewrite bool_decide_eq_false_2 by lia.
      rewrite bool_decide_eq_true_2 by lia.
      apply list_lookup_insert_eq. lia.
    + rewrite list_lookup_insert_ne by congruence.
      destruct (decide (S i <= j < S i + k)%nat).
      * rewrite !bool_decide_eq_true_2 by lia. reflexivity.
      * rewrite !bool_decide_eq_false_2 by lia. reflexivity.
Qed.

Section Facts.

Variable CS_FIELD_N_POINTERS : nat.
Abbreviation N := CS_FIELD_N_POINTERS.

Lemma _init_loop_spec (k : nat) :
  forall (i : nat) fp ss,
    (i + k <= length fp)%nat -> (i + k <= length ss)%nat ->
    _init_loop k (Z.of_nat i) fp ss
    = Done (take i fp ++ replicate k (Some slot0) ++ drop (i + k) fp,
            take i ss ++ replicate k (Some 0) ++ drop (i + k) ss).
Proof.
  induction k as [|k IH]; intros i fp ss Hfp Hss; simpl.
  - rewrite Nat.add_0_r, !take_drop. reflexivity.
  - rewrite !wr_nat by lia. simpl.
    replace (Z.of_nat i + 1) with (Z.of_nat (S i)) by lia.
    rewrite IH by (rewrite length_insert; lia).
    rewrite !drop_insert_lt by lia.
    rewrite !(take_S_r _ i (Some _)) by (apply list_lookup_insert_eq; lia).
    rewrite !take_insert_ge by lia.
    rewrite <- !app_assoc, Nat.add_succ_r. reflexivity.
Qed.

Lemma _init_pointers_spec (st : globals) :
  _field_pointer st = None -> _init_pointers N st = Done (fresh N).
Proof.
  intros H. unfold _init_pointers. rewrite H. simpl.
  rewrite Z.sub_0_r, Nat2Z.id.
  change 0 with (Z.of_nat 0).
  unfold CS_MALLOC. rewrite Nat2Z.id.
  rewrite _init_loop_spec by (rewrite length_replicate; lia).
  simpl. rewrite !drop_replicate, Nat.sub_diag. simpl.
  rewrite !app_nil_r. reflexivity.
Qed.

Lemma load_slot_nat st fp e s :
  _field_pointer st = Some fp -> fp !! e = Some (Some s) ->
  load_slot st (Z.of_nat e) = Done s.
Proof. intros H1 H2. unfold load_slot. rewrite H1. simpl. now apply rd_nat. Qed.

Lemma load_size_nat st ss e sz :
  _sublist_size st = Some ss -> ss !! e = Some (Some sz) ->
  load_size st (Z.of_nat e) = Done sz.
Proof. intros H1 H2. unfold load_size. rewrite H1. simpl. now apply rd_nat. Qed.

Lemma store_slot_nat st fp ss e s :
  _field_pointer st = Some fp -> _sublist_size st = Some ss ->
  (e < length fp)%nat ->
  store_slot st (Z.of_nat e) s = Done (with_arrays st (<[e := Some s]> fp) ss).
Proof.
  intros H1 H2 H3. unfold store_slot. rewrite H1. simpl.
  rewrite wr_nat by exact H3. simpl. unfold with_arrays. now rewrite H2.
Qed.

Lemma store_size_nat st fp ss e n :
  _field_pointer st = Some fp -> _sublist_size st = Some ss ->
  (e < length ss)%nat ->
  store_size st (Z.of_nat e) n = Done (with_arrays st fp (<[e := Some n]> ss)).
Proof.
  intros H1 H2 H3. unfold store_size. rewrite H2. simpl.
  rewrite wr_nat by exact H3. simpl. unfold with_arrays. now rewrite H1.
Qed.

(** On an initialised registry the call acts on slot [e] and its width
    alone, as [slot_map_indexed] describes. *)
Lemma map_indexed_slotwise e index h st fp ss sz s :
  _field_pointer st = Some fp -> _sublist_size st = Some ss ->
  fp !! e = Some (Some s) -> ss !! e = Some (Some sz) ->
  cs_field_pointer_map_indexed N e index h st =
    check (0 <=? index) ;
    check (Z.of_nat e <? _n_pointers st) ;
    do r <- slot_map_indexed sz s index h ;
    Done (with_arrays st (<[e := Some (snd r)]> fp) (<[e := Some (fst r)]> ss)).
Proof.
  intros Hfp Hss Hs Hsz.
  assert (He : (e < length fp)%nat) by (eapply lookup_lt_Some; eauto).
  assert (He' : (e < length ss)%nat) by (eapply lookup_lt_Some; eauto).
  unfold cs_field_pointer_map_indexed. rewrite Hfp.
  destruct (0 <=? index); simpl; [| reflexivity].
  destruct (Z.of_nat e <? _n_pointers st); simpl; [| reflexivity].
  rewrite (load_size_nat _ _ _ _ Hss Hsz). simpl.
  unfold slot_map_indexed.
  destruct ((index =? 0) && (sz <=? 1)).
  - rewrite (load_slot_nat _ _ _ _ Hfp Hs). simpl.
    rewrite (store_slot_nat _ _ _ _ _ Hfp Hss He). simpl.
    erewrite store_size_nat; [reflexivity | reflexivity | reflexivity | exact He'].
  - destruct (sz <=? index).
    + destruct (int_add index 1) as [n_sub|x]; simpl; [| reflexivity].
      rewrite (load_slot_nat _ _ _ _ Hfp Hs). simpl.
      destruct (wr _ 0 (f s)) as [a1|x]; simpl; [| reflexivity].
      destruct (null_fill _ sz a1) as [a2|x]; simpl; [| reflexivity].
      rewrite (store_slot_nat _ _ _ _ _ Hfp Hss He). simpl.
      erewrite store_size_nat;
        [| reflexivity | reflexivity | exact He'].
      simpl.
      erewrite load_slot_nat;
        [| reflexivity | apply list_lookup_insert_eq; exact He].
      simpl.
      destruct (p_store _ index h) as [s'|x]; simpl; [| reflexivity].
      erewrite store_slot_nat;
        [| reflexivity | reflexivity | rewrite length_insert; exact He].
      unfold with_arrays. simpl. now rewrite list_insert_insert_eq.
    + simpl. rewrite (load_slot_nat _ _ _ _ Hfp Hs). simpl.
      destruct (p_store s index h) as [s'|x]; simpl; [| reflexivity].
      rewrite (store_slot_nat _ _ _ _ _ Hfp Hss He).
      now rewrite (list_insert_id ss e (Some sz)).
Qed.

(** *** The three paths of the call, on one slot *)

Lemma slot_direct sz s h :
  sz <= 1 -> slot_map_indexed sz s 0 h = Done (1, {| f := h; p := p s |}).
Proof.
  intros H. unfold slot_map_indexed.
  destruct (Z.leb_spec sz 1); [reflexivity | lia].
Qed.

Lemma slot_else_branch sz index :
  0 <= index -> ~ (index = 0 /\ sz <= 1) -> (index =? 0) && (sz <=? 1) = false.
Proof.
  intros H0 H. destruct (Z.eqb_spec index 0), (Z.leb_spec sz 1);
    simpl; try reflexivity. tauto.
Qed.

Lemma slot_inplace sz s index h a :
  0 <= index < sz -> 1 < sz -> p s = heap a ->
  (Z.to_nat index < length a)%nat ->
  slot_map_indexed sz s index h
  = Done (sz, {| f := f s; p := heap (<[Z.to_nat index := Some h]> a) |}).
Proof.
  intros Hi Hsz Hp Hlen. unfold slot_map_indexed.
  rewrite slot_else_branch by lia.
  destruct (Z.leb_spec sz index); [lia |]. simpl.
  unfold p_store. rewrite Hp.
  rewrite wr_Z by (lia || exact Hlen). reflexivity.
Qed.

Lemma int_add_ok a b :
  - INT_MAX - 1 <= a + b <= INT_MAX -> int_add a b = Done (a + b).
Proof.
  intros H. unfold int_add.
  destruct (Z.leb_spec (a + b) INT_MAX), (Z.leb_spec (- INT_MAX - 1) (a + b));
    simpl; try reflexivity; lia.
Qed.

Lemma slot_grow sz s index h :
  0 <= sz <= index -> 0 < index < INT_MAX ->
  exists a',
    slot_map_indexed sz s index h
    = Done (to_short (index + 1), {| f := f s; p := heap a' |}) /\
    grown sz index s h a'.
Proof.
  intros Hsz Hi. unfold slot_map_indexed.
  rewrite slot_else_branch by lia.
  destruct (Z.leb_spec sz index); [| lia].
  rewrite int_add_ok by (unfold INT_MAX in *; lia). simpl.
  set (n := Z.to_nat (index + 1)).
  set (a0 := match p s with
             | own_f => CS_MALLOC (index + 1)
             | heap a0 => CS_REALLOC a0 (index + 1)
             | p_null => CS_MALLOC (index + 1)
             end).
  assert (Hl0 : length a0 = n).
  { subst a0. unfold CS_MALLOC, CS_REALLOC.
    destruct (p s); rewrite ?length_replicate, ?length_resize; reflexivity. }
  change 0 with (Z.of_nat 0) at 1.
  rewrite wr_nat by lia. simpl.
  destruct (null_fill_spec (Z.to_nat (index + 1 - sz)) (Z.to_nat sz)
              (<[0%nat := Some (f s)]> a0)) as (a2 & Hnf & Hl2 & Hj).
  { rewrite length_insert. lia. }
  rewrite Z2Nat.id in Hnf by lia. rewrite Hnf.
  rewrite length_insert in Hl2. simpl.
  unfold p_store. simpl.
  rewrite wr_Z by lia. simpl.
  eexists. split; [reflexivity |].
  unfold grown. rewrite length_insert. repeat split.
  - lia.
  - apply list_lookup_insert_eq. lia.
  - intros j Hjr. rewrite list_lookup_insert_ne by lia.
    rewrite Hj. rewrite bool_decide_eq_true_2 by lia. reflexivity.
  - intros Hpos. rewrite list_lookup_insert_ne by lia.
    rewrite Hj. rewrite bool_decide_eq_false_2 by lia.
    apply list_lookup_insert_eq. lia.
  - intros j Hjr. rewrite list_lookup_insert_ne by lia.
    rewrite Hj. rewrite bool_decide_eq_false_2 by lia.
    rewrite list_lookup_insert_ne by lia.
    subst a0. unfold CS_MALLOC, CS_REALLOC.
    destruct (p s); try reflexivity; apply lookup_replicate_2; lia.
Qed.

Lemma null_fill_neg k i a :
  i < 0 -> k <> O -> null_fill k i a = Abort out_of_bounds.
Proof.
  intros Hi Hk. destruct k; [congruence |]. simpl. unfold wr.
  destruct (Z.ltb_spec i 0); [reflexivity | lia].
Qed.

(** A width that went negative makes the growing path write before the
    start of the array. *)
Lemma slot_grow_neg sz s index h :
  sz < 0 -> 0 < index < INT_MAX ->
  slot_map_indexed sz s index h = Abort out_of_bounds.
Proof.
  intros Hsz Hi. unfold slot_map_indexed.
  rewrite slot_else_branch by lia.
  destruct (Z.leb_spec sz index); [| lia].
  rewrite int_add_ok by (unfold INT_MAX in *; lia). simpl.
  match goal with |- context [wr ?a 0 (f s)] => set (a0 := a) end.
  assert (Hl0 : length a0 = Z.to_nat (index + 1)).
  { subst a0. unfold CS_MALLOC, CS_REALLOC.
    destruct (p s); rewrite ?length_replicate, ?length_resize; reflexivity. }
  change 0 with (Z.of_nat 0) at 1.
  rewrite wr_nat by lia. simpl.
  rewrite null_fill_neg by lia. reflexivity.
Qed.

Lemma slot_grow_overflow sz s index h :
  sz <= index -> INT_MAX <= index ->
  slot_map_indexed sz s index h = Abort signed_overflow.
Proof.
  intros Hsz Hi. unfold slot_map_indexed.
  rewrite slot_else_branch by (unfold INT_MAX in *; lia).
  destruct (Z.leb_spec sz index); [| lia].
  unfold int_add.
  destruct (Z.leb_spec (index + 1) INT_MAX); [lia |]. reflexivity.
Qed.

Lemma to_short_id n : - 32768 <= n <= SHRT_MAX -> to_short n = n.
Proof.
  intros H. unfold to_short, SHRT_MAX in *.
  rewrite Z.mod_small by lia. lia.
Qed.

Lemma to_short_le n : 0 <= n -> to_short n <= n.
Proof.
  intros H. unfold to_short.
  pose proof (Z.mod_le (n + 32768) 65536). lia.
Qed.

(** *** Invariants of one slot *)

Lemma slot_tight_sound sz s : slot_tight sz s -> slot_sound sz s.
Proof.
  unfold slot_tight, slot_sound. destruct (p s); [tauto | | tauto].
  intros (H1 & H2 & H3). repeat split; [lia | lia | exact H3].
Qed.

Lemma grown_all_Some sz index s h a' :
  0 <= sz <= index -> slot_sound sz s -> grown sz index s h a' ->
  Forall is_Some a'.
Proof.
  intros Hsz Hs (Hl & Hi & Hn & H0 & Hk).
  apply Forall_lookup. intros j x Hjx.
  assert (Hj : (j < length a')%nat) by (eapply lookup_lt_Some; eauto).
  destruct (decide (j = Z.to_nat index)) as [-> | Hne].
  { rewrite Hi in Hjx. injection Hjx as <-. eauto. }
  destruct (decide (sz <= Z.of_nat j)) as [Hge | Hlt].
  { rewrite Hn in Hjx by lia. injection Hjx as <-. eauto. }
  destruct (decide (j = 0%nat)) as [-> | Hj0].
  { rewrite H0 in Hjx by lia. injection Hjx as <-. eauto. }
  rewrite Hk in Hjx by lia. unfold slot_sound in Hs.
  destruct (p s) as [| a |]; [lia | | contradiction].
  destruct Hs as (Hs1 & Hs2 & Hs3).
  rewrite lookup_resize in Hjx by lia.
  eapply Forall_lookup_1; eauto.
Qed.

(** The possible results of the call on a sound slot. *)
Lemma slot_step_cases sz s index h :
  0 <= index -> slot_sound sz s ->
  (index = 0 /\ sz <= 1 /\
     slot_map_indexed sz s index h = Done (1, {| f := h; p := p s |})) \/
  (0 < index < INT_MAX /\ 0 <= sz <= index /\
     exists a', slot_map_indexed sz s index h
                = Done (to_short (index + 1), {| f := f s; p := heap a' |}) /\
                grown sz index s h a') \/
  (index < sz /\ 1 < sz /\
     exists a, p s = heap a /\ (Z.to_nat index < length a)%nat /\
       slot_map_indexed sz s index h
       = Done (sz, {| f := f s; p := heap (<[Z.to_nat index := Some h]> a) |})) \/
  (sz <= index /\ (sz < 0 \/ INT_MAX <= index) /\
     exists x, slot_map_indexed sz s index h = Abort x).
Proof.
  intros Hi Hs.
  destruct (decide (index = 0 /\ sz <= 1)) as [[-> H1] | Hn].
  { left. repeat split; [exact H1 | now apply slot_direct]. }
  destruct (decide (sz <= index)) as [Hle | Hgt].
  - destruct (decide (INT_MAX <= index)) as [Hov | Hov].
    { right. right. right. repeat split; [exact Hle | now right |].
      exists signed_overflow. now apply slot_grow_overflow. }
    destruct (decide (sz < 0)) as [Hneg | Hneg].
    { right. right. right. repeat split; [exact Hle | now left |].
      exists out_of_bounds. apply slot_grow_neg; lia. }
    right. left. repeat split; try lia. apply slot_grow; lia.
  - right. right. left.
    assert (1 < sz) by lia. repeat split; try lia.
    unfold slot_sound in Hs. destruct (p s) as [| a |] eqn:Hp;
      [lia | | contradiction].
    destruct Hs as (Hs1 & Hs2 & Hs3).
    exists a. repeat split; [lia |]. apply slot_inplace; auto; lia.
Qed.

Lemma slot_sound_step sz s index h sz' s' :
  0 <= index -> slot_sound sz s ->
  slot_map_indexed sz s index h = Done (sz', s') -> slot_sound sz' s'.
Proof.
  intros Hi Hs Hd.
  destruct (slot_step_cases sz s index h Hi Hs)
    as [(-> & H1 & E) | [(H0 & H1 & a' & E & Hg) | [(H0 & H1 & a & Hp & Hl & E)
       | (_ & _ & x & E)]]];
    rewrite E in Hd; [| | | discriminate]; injection Hd as <- <-.
  - unfold slot_sound in *. simpl. destruct (p s); [now right | | contradiction].
    destruct Hs as (Hs1 & Hs2 & Hs3). repeat split; [lia | lia | exact Hs3].
  - unfold slot_sound. simpl.
    pose proof (grown_all_Some _ _ _ _ _ H1 Hs Hg) as Hall.
    destruct Hg as (Hl & _).
    pose proof (to_short_le (index + 1)). repeat split; [lia | lia | exact Hall].
  - unfold slot_sound in *. rewrite Hp in Hs. simpl.
    destruct Hs as (Hs1 & Hs2 & Hs3). rewrite length_insert.
    repeat split; [lia | lia |]. apply Forall_insert; eauto.
Qed.

Lemma slot_tight_step sz s index h sz' s' :
  0 <= index < SHRT_MAX -> slot_tight sz s ->
  slot_map_indexed sz s index h = Done (sz', s') -> slot_tight sz' s'.
Proof.
  intros Hi Hs Hd.
  pose proof (slot_tight_sound _ _ Hs) as Hsd.
  destruct (slot_step_cases sz s index h (proj1 Hi) Hsd)
    as [(-> & H1 & E) | [(H0 & H1 & a' & E & Hg) | [(H0 & H1 & a & Hp & Hl & E)
       | (_ & _ & x & E)]]];
    rewrite E in Hd; [| | | discriminate]; injection Hd as <- <-.
  - unfold slot_tight in *. simpl. destruct (p s); [now right | lia | contradiction].
  - unfold slot_tight. simpl.
    pose proof (grown_all_Some _ _ _ _ _ H1 Hsd Hg) as Hall.
    destruct Hg as (Hl & _).
    rewrite to_short_id by (unfold SHRT_MAX in *; lia).
    unfold SHRT_MAX in *. repeat split; [lia | lia | lia | exact Hall].
  - unfold slot_tight in *. rewrite Hp in Hs. simpl.
    destruct Hs as (Hs1 & Hs2 & Hs3). rewrite length_insert.
    repeat split; [lia | lia | lia |]. apply Forall_insert; eauto.
Qed.

(** With widths in the [short] range the call never aborts. *)
Lemma slot_tight_total sz s index h :
  0 <= index < INT_MAX -> slot_tight sz s ->
  exists r, slot_map_indexed sz s index h = Done r.
Proof.
  intros Hi Hs.
  pose proof (slot_tight_sound _ _ Hs) as Hsd.
  destruct (slot_step_cases sz s index h (proj1 Hi) Hsd)
    as [(-> & H1 & E) | [(H0 & H1 & a' & E & Hg) | [(H0 & H1 & a & Hp & Hl & E)
       | (H0 & H1 & _)]]]; eauto.
  exfalso. unfold slot_tight in Hs.
  destruct (p s); [| | contradiction]; lia.
Qed.

(** *** Invariants of the registry *)

Lemma inv_fresh (P : Z -> cs_field_pointer_array_t -> Prop) :
  P 0 slot0 -> registry_inv N P (fresh N).
Proof.
  intros HP. unfold registry_inv. simpl.
  repeat split; [apply length_replicate |].
  apply Forall2_replicate. exists 0, slot0. auto.
Qed.

Lemma inv_startup P : registry_inv N P startup.
Proof. reflexivity. Qed.

Lemma sound_slot0 : slot_sound 0 slot0.
Proof. left. split; reflexivity. Qed.

Lemma tight_slot0 : slot_tight 0 slot0.
Proof. left. split; reflexivity. Qed.

(** What the invariant says of an initialised registry. *)
Lemma inv_cells P st fp :
  registry_inv N P st -> _field_pointer st = Some fp ->
  exists ss,
    _sublist_size st = Some ss /\
    _n_pointers st = Z.of_nat N /\
    cs_glob_field_pointers st = glob_field_pointer /\
    length fp = N /\ length ss = N /\
    forall e, (e < N)%nat ->
      exists sz s, ss !! e = Some (Some sz) /\ fp !! e = Some (Some s) /\ P sz s.
Proof.
  unfold registry_inv. intros H Hfp. rewrite Hfp in H.
  destruct (_sublist_size st) as [ss|]; [| contradiction].
  destruct H as (Hn & Hg & Hl & HF).
  pose proof (Forall2_length _ _ _ HF) as Hl'.
  exists ss. repeat split; auto; [congruence |].
  intros e He.
  destruct (lookup_lt_is_Some_2 ss e) as [osz Hosz]; [lia |].
  destruct (Forall2_lookup_l _ _ _ _ _ HF Hosz) as (os & Hos & sz & s0 & -> & -> & HP).
  eauto.
Qed.

Lemma map_indexed_uninit e index h st :
  _field_pointer st = None ->
  cs_field_pointer_map_indexed N e index h st
  = cs_field_pointer_map_indexed N e index h (fresh N).
Proof.
  intros H. unfold cs_field_pointer_map_indexed. rewrite H.
  rewrite (_init_pointers_spec _ H). reflexivity.
Qed.

(** The call on an initialised registry that satisfies the invariant. *)
Lemma map_indexed_init P e index h st fp :
  registry_inv N P st -> _field_pointer st = Some fp ->
  0 <= index -> (e < N)%nat ->
  exists ss sz s,
    _sublist_size st = Some ss /\
    ss !! e = Some (Some sz) /\ fp !! e = Some (Some s) /\ P sz s /\
    cs_field_pointer_map_indexed N e index h st =
      do r <- slot_map_indexed sz s index h ;
      Done (with_arrays st (<[e := Some (snd r)]> fp) (<[e := Some (fst r)]> ss)).
Proof.
  intros Hinv Hfp Hi He.
  destruct (inv_cells _ _ _ Hinv Hfp) as (ss & Hss & Hn & Hg & Hl & Hl' & Hc).
  destruct (Hc e He) as (sz & s & Hsz & Hs & HP).
  exists ss, sz, s. repeat split; auto.
  rewrite (map_indexed_slotwise _ _ _ _ _ _ _ _ Hfp Hss Hs Hsz).
  destruct (Z.leb_spec 0 index); [| lia]. simpl.
  rewrite Hn. destruct (Z.ltb_spec (Z.of_nat e) (Z.of_nat N)); [| lia].
  reflexivity.
Qed.

Lemma map_indexed_asserts e index h st st' :
  _field_pointer st <> None -> _n_pointers st = Z.of_nat N ->
  cs_field_pointer_map_indexed N e index h st = Done st' ->
  0 <= index /\ (e < N)%nat.
Proof.
  intros Hfp Hn. unfold cs_field_pointer_map_indexed.
  destruct (Z.leb_spec 0 index); simpl; [| discriminate].
  destruct (_field_pointer st); [| congruence]. simpl. rewrite Hn.
  destruct (Z.ltb_spec (Z.of_nat e) (Z.of_nat N)); simpl; [| discriminate].
  intros _. split; lia.
Qed.

Lemma inv_with_arrays P st fp ss e sz s :
  _n_pointers st = Z.of_nat N ->
  cs_glob_field_pointers st = glob_field_pointer ->
  length fp = N -> Forall2 (cell_rel P) ss fp -> P sz s ->
  registry_inv N P (with_arrays st (<[e := Some s]> fp) (<[e := Some sz]> ss)).
Proof.
  intros Hn Hg Hl HF HP. unfold registry_inv, with_arrays. simpl.
  repeat split; auto; [now rewrite length_insert |].
  apply Forall2_insert; [exact HF |]. exists sz, s. auto.
Qed.

Lemma inv_Forall2 P st fp ss :
  registry_inv N P st -> _field_pointer st = Some fp ->
  _sublist_size st = Some ss -> Forall2 (cell_rel P) ss fp.
Proof.
  unfold registry_inv. intros H H1 H2. rewrite H1, H2 in H. tauto.
Qed.

Lemma map_indexed_inv (P : Z -> cs_field_pointer_array_t -> Prop)
    e index h st st' :
  P 0 slot0 ->
  (forall sz s sz' s', P sz s ->
     slot_map_indexed sz s index h = Done (sz', s') -> P sz' s') ->
  registry_inv N P st ->
  cs_field_pointer_map_indexed N e index h st = Done st' ->
  registry_inv N P st'.
Proof.
  intros H0 Hstep Hinv Hd.
  assert (Hgen : forall st0 fp, registry_inv N P st0 ->
            _field_pointer st0 = Some fp ->
            cs_field_pointer_map_indexed N e index h st0 = Done st' ->
            registry_inv N P st').
  { clear st Hinv Hd. intros st fp Hinv Hfp Hd.
    destruct (inv_cells _ _ _ Hinv Hfp) as (ss0 & Hss0 & Hn & Hg & Hl & _).
    destruct (map_indexed_asserts e index h st st') as (Hi & He);
      [congruence | exact Hn | exact Hd |].
    destruct (map_indexed_init P e index h st fp Hinv Hfp Hi He)
      as (ss & sz & s & Hss & Hsz & Hs & HP & E).
    rewrite E in Hd. apply bind_Done in Hd as ([sz' s'] & Hr & Hd).
    injection Hd as <-. simpl.
    apply inv_with_arrays; auto.
    - eapply inv_Forall2; eauto.
    - eapply Hstep; eauto. }
  destruct (_field_pointer st) as [fp|] eqn:Hfp.
  - eapply Hgen; eauto.
  - rewrite (map_indexed_uninit _ _ _ _ Hfp) in Hd.
    eapply (Hgen (fresh N)); [now apply inv_fresh | reflexivity | exact Hd].
Qed.

Lemma ensure_init_spec st :
  cs_field_pointer_ensure_init N st
  = Done (match _field_pointer st with None => fresh N | Some _ => st end).
Proof.
  unfold cs_field_pointer_ensure_init.
  destruct (_field_pointer st) eqn:H; [reflexivity |].
  now apply _init_pointers_spec.
Qed.

Lemma destroy_all_Done st st' :
  cs_field_pointer_destroy_all st = Done st' ->
  _field_pointer st' = None /\ _sublist_size st' = None /\
  cs_glob_field_pointers st' = glob_null.
Proof.
  unfold cs_field_pointer_destroy_all. intros H.
  apply bind_Done in H as (st1 & _ & H). injection H as <-. auto.
Qed.

Lemma exec_inv (P : Z -> cs_field_pointer_array_t -> Prop) c st st' :
  P 0 slot0 ->
  (forall e index h sz s sz' s', c = map_indexed e index h \/
       (c = map e h /\ index = 0) -> 0 <= index -> P sz s ->
     slot_map_indexed sz s index h = Done (sz', s') -> P sz' s') ->
  registry_inv N P st -> exec N c st = Done st' -> registry_inv N P st'.
Proof.
  intros H0 Hstep Hinv Hd. destruct c as [| | e h | e index h]; simpl in Hd.
  - rewrite ensure_init_spec in Hd. injection Hd as <-.
    destruct (_field_pointer st); [exact Hinv | now apply inv_fresh].
  - apply destroy_all_Done in Hd as (H1 & H2 & H3).
    unfold registry_inv. now rewrite H1, H2.
  - unfold cs_field_pointer_map in Hd.
    eapply map_indexed_inv; eauto. intros. eapply (Hstep e 0 h); eauto. lia.
  - assert (0 <= index).
    { unfold cs_field_pointer_map_indexed in Hd.
      destruct (Z.leb_spec 0 index); [lia | discriminate]. }
    eapply map_indexed_inv; eauto.
Qed.

Lemma exec_sound c st st' :
  registry_inv N slot_sound st -> exec N c st = Done st' ->
  registry_inv N slot_sound st'.
Proof.
  apply exec_inv; [exact sound_slot0 |].
  intros e index h sz s sz' s' _ Hi Hs Hd. eapply slot_sound_step; eauto.
Qed.

Lemma exec_tight c st st' :
  fits_short c = true ->
  registry_inv N slot_tight st -> exec N c st = Done st' ->
  registry_inv N slot_tight st'.
Proof.
  intros Hc. apply exec_inv; [exact tight_slot0 |].
  intros e index h sz s sz' s' Hin Hi Hs Hd.
  eapply slot_tight_step; [| exact Hs | exact Hd].
  destruct Hin as [-> | [-> ->]]; simpl in Hc; unfold SHRT_MAX in *; lia.
Qed.

Lemma run_sound cs : forall st st',
  registry_inv N slot_sound st -> run N cs st = Done st' ->
  registry_inv N slot_sound st'.
Proof.
  induction cs as [|c cs IH]; simpl; intros st st' Hinv Hd.
  - now injection Hd as <-.
  - apply bind_Done in Hd as (st1 & H1 & H2).
    eapply IH; [| exact H2]. eapply exec_sound; eauto.
Qed.

Lemma run_tight cs : forall st st',
  forallb fits_short cs = true ->
  registry_inv N slot_tight st -> run N cs st = Done st' ->
  registry_inv N slot_tight st'.
Proof.
  induction cs as [|c cs IH]; simpl; intros st st' Hf Hinv Hd.
  - now injection Hd as <-.
  - apply andb_prop in Hf as (Hc & Hf).
    apply bind_Done in Hd as (st1 & H1 & H2).
    eapply IH; [exact Hf | | exact H2]. eapply exec_tight; eauto.
Qed.

Lemma reachable_sound st : reachable N st -> registry_inv N slot_sound st.
Proof. intros (cs & H). eapply run_sound; [apply inv_startup | exact H]. Qed.

Lemma reachable_short_tight st :
  reachable_short N st -> registry_inv N slot_tight st.
Proof. intros (cs & Hf & H). eapply run_tight; [exact Hf | apply inv_startup | exact H]. Qed.

Lemma run_app cs1 : forall cs2 st,
  run N (cs1 ++ cs2) st = do st1 <- run N cs1 st ; run N cs2 st1.
Proof.
  induction cs1 as [|c cs1 IH]; simpl; intros cs2 st; [reflexivity |].
  destruct (exec N c st); simpl; [apply IH | reflexivity].
Qed.

(** *** Reading the registry *)

Lemma rd_Z {A} (b : block A) (i : Z) (v : A) :
  0 <= i -> b !! Z.to_nat i = Some (Some v) -> rd b i = Done v.
Proof.
  intros H0 H. rewrite <- (Z2Nat.id i) by exact H0. now apply rd_nat.
Qed.

Lemma load_size_with st fp ss e sz :
  ss !! e = Some (Some sz) ->
  load_size (with_arrays st fp ss) (Z.of_nat e) = Done sz.
Proof. intros H. eapply load_size_nat; [reflexivity | exact H]. Qed.

Lemma load_slot_with st fp ss e s :
  fp !! e = Some (Some s) ->
  load_slot (with_arrays st fp ss) (Z.of_nat e) = Done s.
Proof. intros H. eapply load_slot_nat; [reflexivity | exact H]. Qed.

Lemma CS_FI_init st fp e s i :
  cs_glob_field_pointers st = glob_field_pointer ->
  _field_pointer st = Some fp -> fp !! e = Some (Some s) ->
  CS_FI_ st e i = p_load s i.
Proof.
  intros Hg Hfp Hs. unfold CS_FI_. rewrite Hg.
  now rewrite (load_slot_nat _ _ _ _ Hfp Hs).
Qed.

Lemma CS_FI_with st fp ss e s i :
  cs_glob_field_pointers st = glob_field_pointer ->
  fp !! e = Some (Some s) ->
  CS_FI_ (with_arrays st fp ss) e i = p_load s i.
Proof. intros Hg Hs. eapply CS_FI_init; [exact Hg | reflexivity | exact Hs]. Qed.

Lemma p_load_heap v a i h :
  0 <= i -> a !! Z.to_nat i = Some (Some h) ->
  p_load {| f := v; p := heap a |} i = Done h.
Proof. intros H0 H. unfold p_load. simpl. now apply rd_Z. Qed.

Lemma load_size_Done st e sz :
  load_size st (Z.of_nat e) = Done sz ->
  exists ss, _sublist_size st = Some ss /\ ss !! e = Some (Some sz).
Proof.
  unfold load_size. destruct (_sublist_size st) as [ss|]; simpl; [| discriminate].
  intros H. apply rd_Done in H as (_ & H). rewrite Nat2Z.id in H. eauto.
Qed.

Lemma load_slot_Done st e s :
  load_slot st (Z.of_nat e) = Done s ->
  exists fp, _field_pointer st = Some fp /\ fp !! e = Some (Some s).
Proof.
  unfold load_slot. destruct (_field_pointer st) as [fp|]; simpl; [| discriminate].
  intros H. apply rd_Done in H as (_ & H). rewrite Nat2Z.id in H. eauto.
Qed.

Lemma inv_ensured P st :
  P 0 slot0 -> registry_inv N P st -> registry_inv N P (ensured N st).
Proof.
  intros H0 H. unfold ensured.
  destruct (_field_pointer st); [exact H | now apply inv_fresh].
Qed.

Lemma ensured_initialized st : exists fp, _field_pointer (ensured N st) = Some fp.
Proof.
  unfold ensured. destruct (_field_pointer st) eqn:E; [eauto |].
  simpl. eauto.
Qed.

(** A slot that can be read in a registry satisfying the invariant. *)
Lemma init_view P st e sz :
  registry_inv N P st -> load_size st (Z.of_nat e) = Done sz ->
  exists fp ss s,
    _field_pointer st = Some fp /\ _sublist_size st = Some ss /\
    cs_glob_field_pointers st = glob_field_pointer /\
    length fp = N /\ length ss = N /\ (e < N)%nat /\
    ss !! e = Some (Some sz) /\ fp !! e = Some (Some s) /\ P sz s /\
    load_slot st (Z.of_nat e) = Done s.
Proof.
  intros Hinv Hsz. apply load_size_Done in Hsz as (ss & Hss & Hsz).
  destruct (_field_pointer st) as [fp|] eqn:Hfp.
  2:{ unfold registry_inv in Hinv. rewrite Hfp, Hss in Hinv. contradiction. }
  destruct (inv_cells _ _ _ Hinv Hfp) as (ss' & Hss' & Hn & Hg & Hl & Hl' & Hc).
  assert (ss' = ss) by congruence. subst ss'.
  assert (He : (e < N)%nat) by (apply lookup_lt_Some in Hsz; lia).
  destruct (Hc e He) as (sz' & s & Hsz' & Hs & HP).
  assert (sz' = sz) by congruence. subst sz'.
  exists fp, ss, s. repeat split; auto.
  eapply load_slot_nat; eauto.
Qed.

(** *** Teardown *)

Lemma _destroy_loop_ok (k : nat) :
  forall (i : nat) st fp ss,
    _field_pointer st = Some fp -> _sublist_size st = Some ss ->
    (forall j, (i <= j < i + k)%nat ->
       exists sz s, ss !! j = Some (Some sz) /\ fp !! j = Some (Some s) /\
                    (1 < sz -> p s <> own_f)) ->
    exists st1, _destroy_loop k (Z.of_nat i) st = Done st1 /\
                _n_pointers st1 = _n_pointers st.
Proof.
  induction k as [|k IH]; intros i st fp ss Hfp Hss Hc; simpl; [eauto |].
  destruct (Hc i) as (sz & s & Hsz & Hs & Hp); [lia |].
  rewrite (load_size_nat _ _ _ _ Hss Hsz). simpl.
  replace (Z.of_nat i + 1) with (Z.of_nat (S i)) by lia.
  destruct (Z.ltb_spec 1 sz) as [H1 | H1].
  - rewrite (load_slot_nat _ _ _ _ Hfp Hs). simpl.
    assert (Hfree : CS_FREE_p s = Done {| f := f s; p := p_null |}).
    { unfold CS_FREE_p. destruct (p s); [now destruct (Hp H1) | |]; reflexivity. }
    rewrite Hfree. simpl.
    rewrite (store_slot_nat _ _ _ _ _ Hfp Hss)
      by (eapply lookup_lt_Some; eauto).
    simpl.
    destruct (IH (S i)
                (with_arrays st (<[i := Some {| f := f s; p := p_null |}]> fp) ss)
                _ _ eq_refl eq_refl) as (st1 & E & Hn1); [| eauto].
    intros j Hj. destruct (Hc j) as (sz' & s' & H1' & H2' & H3'); [lia |].
    exists sz', s'. repeat split; auto.
    rewrite list_lookup_insert_ne by lia. exact H2'.
  - simpl. eapply (IH (S i)); eauto.
    intros j Hj. apply Hc. lia.
Qed.

Lemma destroy_all_sound st :
  registry_inv N slot_sound st -> initialized st ->
  cs_field_pointer_destroy_all st
  = Done {| _n_pointers := Z.of_nat N; _field_pointer := None;
            _sublist_size := None; cs_glob_field_pointers := glob_null |}.
Proof.
  intros Hinv Hi. unfold initialized in Hi.
  destruct (_field_pointer st) as [fp|] eqn:Hfp; [| congruence].
  destruct (inv_cells _ _ _ Hinv Hfp) as (ss & Hss & Hn & Hg & Hl & Hl' & Hc).
  unfold cs_field_pointer_destroy_all.
  rewrite Hn, Z.sub_0_r, Nat2Z.id. change 0 with (Z.of_nat 0).
  destruct (_destroy_loop_ok N 0 st fp ss Hfp Hss) as (st1 & -> & Hn1).
  { intros j Hj. destruct (Hc j) as (sz & s & H1 & H2 & H3); [lia |].
    exists sz, s. repeat split; auto. intros Hsz Hp.
    unfold slot_sound in H3. rewrite Hp in H3. lia. }
  simpl. now rewrite Hn1, Hn.
Qed.

Lemma fresh_cells e :
  (e < N)%nat ->
  load_slot (fresh N) (Z.of_nat e) = Done {| f := nullptr; p := own_f |} /\
  load_size (fresh N) (Z.of_nat e) = Done 0.
Proof.
  intros He. split.
  - eapply load_slot_nat; [reflexivity | now apply lookup_replicate_2].
  - eapply load_size_nat; [reflexivity | now apply lookup_replicate_2].
Qed.

Lemma inv_tight_sound st :
  registry_inv N slot_tight st -> registry_inv N slot_sound st.
Proof.
  unfold registry_inv.
  destruct (_field_pointer st) as [fp|], (_sublist_size st) as [ss|]; auto.
  intros (Hn & Hg & Hl & HF). repeat split; auto.
  eapply Forall2_impl; [exact HF |].
  intros x y (sz & s & -> & -> & Ht). exists sz, s.
  repeat split. now apply slot_tight_sound.
Qed.

(** *** The call seen from a readable slot *)

Lemma map_indexed_ensured e index h st :
  cs_field_pointer_map_indexed N e index h st
  = cs_field_pointer_map_indexed N e index h (ensured N st).
Proof.
  unfold ensured. destruct (_field_pointer st) eqn:E; [reflexivity |].
  now apply map_indexed_uninit.
Qed.

Lemma load_other st fp ss e e' (s : cs_field_pointer_array_t) (sz : Z) :
  _field_pointer st = Some fp -> _sublist_size st = Some ss -> e' <> e ->
  load_slot (with_arrays st (<[e := Some s]> fp) (<[e := Some sz]> ss))
    (Z.of_nat e') = load_slot st (Z.of_nat e') /\
  load_size (with_arrays st (<[e := Some s]> fp) (<[e := Some sz]> ss))
    (Z.of_nat e') = load_size st (Z.of_nat e').
Proof.
  intros Hfp Hss Hne. unfold load_slot, load_size, with_arrays. simpl.
  rewrite Hfp, Hss. simpl. unfold rd.
  destruct (Z.of_nat e' <? 0); [split; reflexivity |].
  rewrite Nat2Z.id, !list_lookup_insert_ne by congruence. split; reflexivity.
Qed.

(** Everything the proofs below need about a call [map_indexed e index h]
    on a registry in which the width of slot [e] can be read: the call is
    [slot_map_indexed] on the slot, and the registry that results is read
    back as expected. *)
Lemma call_view st e sz index h :
  registry_inv N slot_sound st -> load_size st (Z.of_nat e) = Done sz ->
  0 <= index ->
  exists fp ss s,
    (e < N)%nat /\
    _field_pointer st = Some fp /\ _sublist_size st = Some ss /\
    slot_sound sz s /\
    load_slot st (Z.of_nat e) = Done s /\
    (forall i, CS_FI_ st e i = p_load s i) /\
    cs_field_pointer_map_indexed N e index h st =
      (do r <- slot_map_indexed sz s index h ;
       Done (with_arrays st (<[e := Some (snd r)]> fp) (<[e := Some (fst r)]> ss))) /\
    forall sz' s',
      let st' := with_arrays st (<[e := Some s']> fp) (<[e := Some sz']> ss) in
      load_slot st' (Z.of_nat e) = Done s' /\
      load_size st' (Z.of_nat e) = Done sz' /\
      (forall i, CS_FI_ st' e i = p_load s' i) /\
      (forall e', e' <> e ->
         load_slot st' (Z.of_nat e') = load_slot st (Z.of_nat e') /\
         load_size st' (Z.of_nat e') = load_size st (Z.of_nat e')).
Proof.
  intros Hinv Hsz Hi.
  destruct (init_view _ _ _ _ Hinv Hsz)
    as (fp & ss & s & Hfp & Hss & Hg & Hl & Hl' & He & Hsz' & Hs & HP & Hld).
  exists fp, ss, s. repeat split; auto.
  - intros i. eapply CS_FI_init; eauto.
  - destruct (map_indexed_init slot_sound e index h st fp Hinv Hfp Hi He)
      as (ss1 & sz1 & s1 & Hss1 & Hsz1 & Hs1 & _ & E).
    assert (ss1 = ss) by congruence. subst ss1.
    assert (sz1 = sz) by congruence. assert (s1 = s) by congruence.
    subst sz1 s1. exact E.
  - apply load_slot_with, list_lookup_insert_eq. lia.
  - apply load_size_with, list_lookup_insert_eq. lia.
  - intros i. apply CS_FI_with; [exact Hg |].
    apply list_lookup_insert_eq. lia.
  - eapply load_other; eauto.
  - eapply load_other; eauto.
Qed.

Lemma slot_map_cases sz s h :
  slot_sound sz s ->
  (sz <= 1 /\
     slot_map_indexed sz s 0 h = Done (1, {| f := h; p := p s |})) \/
  (1 < sz /\ exists a, p s = heap a /\ (0 < length a)%nat /\
     slot_map_indexed sz s 0 h
     = Done (sz, {| f := f s; p := heap (<[0%nat := Some h]> a) |})).
Proof.
  intros Hs. destruct (decide (sz <= 1)) as [H1 | H1].
  - left. split; [exact H1 | now apply slot_direct].
  - right. split; [lia |]. unfold slot_sound in Hs.
    destruct (p s) as [| a |] eqn:Hp; [lia | | contradiction].
    destruct Hs as (Hs1 & Hs2 & Hs3). exists a. repeat split; [lia |].
    apply (slot_inplace sz s 0 h a); auto; simpl; lia.
Qed.

Lemma ensured_readable st e :
  registry_inv N slot_sound st -> (e < N)%nat ->
  exists sz, load_size (ensured N st) (Z.of_nat e) = Done sz.
Proof.
  intros Hinv He.
  destruct (ensured_initialized st) as (fp & Hfp).
  destruct (inv_cells _ _ _ (inv_ensured _ _ sound_slot0 Hinv) Hfp)
    as (ss & Hss & _ & _ & _ & _ & Hc).
  destruct (Hc e He) as (sz & s & Hsz & _).
  exists sz. eapply load_size_nat; eauto.
Qed.

(** A growing call on a readable slot. *)
Lemma grow_view st e sz index h :
  registry_inv N slot_sound st -> load_size st (Z.of_nat e) = Done sz ->
  0 <= sz <= index -> 0 < index < INT_MAX ->
  exists s a' st',
    load_slot st (Z.of_nat e) = Done s /\ slot_sound sz s /\
    (forall i, CS_FI_ st e i = p_load s i) /\
    cs_field_pointer_map_indexed N e index h st = Done st' /\
    grown sz index s h a' /\
    load_slot st' (Z.of_nat e) = Done {| f := f s; p := heap a' |} /\
    load_size st' (Z.of_nat e) = Done (to_short (index + 1)) /\
    (forall i, CS_FI_ st' e i = rd a' i).
Proof.
  intros Hinv Hsz Hr Hi.
  destruct (call_view _ e sz index h Hinv Hsz ltac:(lia))
    as (fp & ss & s & _ & Hfp & Hss & Hs & Hld & Hrd & E & Hw).
  destruct (slot_grow sz s index h Hr Hi) as (a' & Eg & Hg).
  rewrite Eg in E. simpl in E.
  destruct (Hw (to_short (index + 1)) {| f := f s; p := heap a' |})
    as (W1 & W2 & W3 & _).
  exists s, a'. eexists.
  split; [exact Hld |]. split; [exact Hs |]. split; [exact Hrd |].
  split; [exact E |]. split; [exact Hg |]. split; [exact W1 |].
  split; [exact W2 |]. intros i. rewrite W3. reflexivity.
Qed.

(** Whenever a slot of positive width grows, its position 0 receives the
    direct field [f], whatever the position held before. *)
Lemma grow_puts_f_at_0 st e sz index h :
  registry_inv N slot_sound st -> load_size st (Z.of_nat e) = Done sz ->
  0 < sz <= index -> index < INT_MAX ->
  exists s st',
    load_slot st (Z.of_nat e) = Done s /\
    cs_field_pointer_map_indexed N e index h st = Done st' /\
    CS_FI_ st' e 0 = Done (f s).
Proof.
  intros Hinv Hsz Hr Hi.
  destruct (grow_view st e sz index h Hinv Hsz)
    as (s & a' & st' & Hs & _ & _ & E & Hg & _ & _ & W3); [lia | lia |].
  exists s, st'. split; [exact Hs |]. split; [exact E |].
  rewrite W3. apply rd_Z; [lia |].
  destruct Hg as (_ & _ & _ & H0 & _). apply H0. lia.
Qed.

Lemma rd_grown_null sz index s h a' (j : Z) :
  grown sz index s h a' -> 0 <= sz <= j -> j < index ->
  rd a' j = Done nullptr.
Proof.
  intros (_ & _ & Hn & _) H1 H2. apply rd_Z; [lia |]. apply Hn. lia.
Qed.

Lemma rd_grown_index sz index s h a' :
  grown sz index s h a' -> 0 <= index -> rd a' index = Done h.
Proof. intros (_ & Hi & _) H0. now apply rd_Z. Qed.

(** *** One call, seen from any slot *)

Lemma slot_mono sz s index h sz' s' :
  slot_sound sz s -> 0 <= index < SHRT_MAX ->
  slot_map_indexed sz s index h = Done (sz', s') ->
  sz <= sz' /\ (p s <> own_f -> p s' <> own_f) /\ (1 < sz -> f s' = f s).
Proof.
  intros Hs Hi Hd.
  destruct (slot_step_cases sz s index h (proj1 Hi) Hs)
    as [(-> & H1 & E) | [(H0 & H1 & a' & E & Hg) | [(H0 & H1 & a & Hp & Hl & E)
       | (_ & _ & x & E)]]];
    rewrite E in Hd; [| | | discriminate]; injection Hd as <- <-; simpl.
  - repeat split; [| auto | lia].
    unfold slot_sound in Hs. destruct (p s); lia.
  - rewrite to_short_id by (unfold SHRT_MAX in *; lia).
    repeat split; [lia | discriminate].
  - repeat split; [lia | discriminate].
Qed.

Lemma map_indexed_view e' index h st st' e sz s :
  registry_inv N slot_sound st ->
  load_size st (Z.of_nat e) = Done sz -> load_slot st (Z.of_nat e) = Done s ->
  cs_field_pointer_map_indexed N e' index h st = Done st' ->
  0 <= index /\
  exists sz' s',
    load_size st' (Z.of_nat e) = Done sz' /\
    load_slot st' (Z.of_nat e) = Done s' /\
    ((e' <> e /\ sz' = sz /\ s' = s) \/
     (e' = e /\ slot_map_indexed sz s index h = Done (sz', s'))).
Proof.
  intros Hinv Hsz Hs Hd.
  destruct (init_view _ _ _ _ Hinv Hsz)
    as (fp & ss & s0 & Hfp & Hss & Hg & Hl & Hl' & He & _).
  destruct (inv_cells _ _ _ Hinv Hfp) as (ss0 & Hss0 & Hn & _ & _ & _ & Hc).
  destruct (map_indexed_asserts e' index h st st') as (Hi & He');
    [congruence | exact Hn | exact Hd |].
  split; [exact Hi |].
  destruct (Hc e' He') as (sz1 & s1 & Hsz1 & Hs1 & _).
  assert (ss0 = ss) by congruence. subst ss0.
  pose proof (load_size_nat _ _ _ _ Hss Hsz1) as Hld1.
  destruct (call_view st e' sz1 index h Hinv Hld1 Hi)
    as (fp' & ss' & s1' & _ & Hfp' & Hss' & Hsd & Hls & _ & E & Hw).
  rewrite E in Hd. apply bind_Done in Hd as ([sz2 s2] & Hr & Hd).
  injection Hd as <-. simpl.
  destruct (Hw sz2 s2) as (W1 & W2 & _ & W4).
  destruct (decide (e' = e)) as [-> | Hne].
  - exists sz2, s2. repeat split; auto. right. split; [reflexivity |].
    assert (sz1 = sz) by congruence. assert (s1' = s) by congruence.
    subst. exact Hr.
  - destruct (W4 e ltac:(congruence)) as (V1 & V2).
    exists sz, s. repeat split; [congruence | congruence |]. left. auto.
Qed.

Lemma exec_view c st st' e sz s :
  registry_inv N slot_sound st ->
  load_size st (Z.of_nat e) = Done sz -> load_slot st (Z.of_nat e) = Done s ->
  is_mapping c = true -> fits_short c = true ->
  exec N c st = Done st' ->
  exists sz' s',
    load_size st' (Z.of_nat e) = Done sz' /\
    load_slot st' (Z.of_nat e) = Done s' /\
    sz <= sz' /\ (p s <> own_f -> p s' <> own_f) /\ (1 < sz -> f s' = f s).
Proof.
  intros Hinv Hsz Hs Hm Hf Hd.
  assert (Hstep : forall e' index h,
            index < SHRT_MAX ->
            cs_field_pointer_map_indexed N e' index h st = Done st' ->
            exists sz' s',
              load_size st' (Z.of_nat e) = Done sz' /\
              load_slot st' (Z.of_nat e) = Done s' /\
              sz <= sz' /\ (p s <> own_f -> p s' <> own_f) /\
              (1 < sz -> f s' = f s)).
  { intros e' index h Hi Hd'.
    destruct (map_indexed_view e' index h st st' e sz s Hinv Hsz Hs Hd')
      as (H0 & sz' & s' & W1 & W2 & [(Hne & -> & ->) | (-> & Hr)]).
    - exists sz, s. repeat split; auto. lia.
    - exists sz', s'. split; [exact W1 |]. split; [exact W2 |].
      destruct (init_view _ _ _ _ Hinv Hsz)
        as (fp & ss & s0 & _ & _ & _ & _ & _ & _ & _ & _ & Hsd & Hld).
      assert (s0 = s) by congruence. subst s0.
      eapply slot_mono; eauto. }
  destruct c as [| | e' h | e' index h]; simpl in *.
  - rewrite ensure_init_spec in Hd. injection Hd as <-.
    destruct (load_slot_Done _ _ _ Hs) as (fp & -> & _).
    exists sz, s. split; [exact Hsz |]. split; [exact Hs |].
    split; [lia | auto].
  - discriminate.
  - eapply Hstep; [| exact Hd]. reflexivity.
  - eapply Hstep; [| exact Hd]. lia.
Qed.

Lemma run_fresh_reachable cs st :
  run N cs (fresh N) = Done st -> reachable N st.
Proof.
  intros H. exists (ensure_init :: cs). simpl.
  now rewrite ensure_init_spec.
Qed.

(** *** Widths beyond the [short] range *)

Lemma run_one c st : run N [c] st = exec N c st.
Proof. simpl. now destruct (exec N c st). Qed.

Lemma to_short_wrap : to_short (SHRT_MAX + 1) = -32768.
Proof. reflexivity. Qed.

(** Growing a readable slot to [SHRT_MAX + 1] elements stores a negative
    width. *)
Lemma grow_past_short st e sz h :
  registry_inv N slot_sound st -> load_size st (Z.of_nat e) = Done sz ->
  0 <= sz <= SHRT_MAX ->
  exists s a' st',
    load_slot st (Z.of_nat e) = Done s /\
    cs_field_pointer_map_indexed N e SHRT_MAX h st = Done st' /\
    registry_inv N slot_sound st' /\
    grown sz SHRT_MAX s h a' /\
    load_slot st' (Z.of_nat e) = Done {| f := f s; p := heap a' |} /\
    load_size st' (Z.of_nat e) = Done (-32768) /\
    (forall i, CS_FI_ st' e i = rd a' i).
Proof.
  intros Hinv Hsz Hr.
  destruct (grow_view st e sz SHRT_MAX h Hinv Hsz Hr)
    as (s & a' & st' & Hs & _ & _ & E & Hg & W1 & W2 & W3).
  { unfold SHRT_MAX, INT_MAX. lia. }
  rewrite to_short_wrap in W2.
  exists s, a', st'.
  split; [exact Hs |]. split; [exact E |].
  split; [eapply (exec_sound (map_indexed e SHRT_MAX h)); eauto |].
  split; [exact Hg |]. split; [exact W1 |]. split; [exact W2 | exact W3].
Qed.

(** [map] on a readable slot whose width is at most 1, whatever [p]
    refers to. *)
Lemma map_on_narrow_width st e sz s h :
  registry_inv N slot_sound st ->
  load_size st (Z.of_nat e) = Done sz -> load_slot st (Z.of_nat e) = Done s ->
  sz <= 1 ->
  exists st',
    cs_field_pointer_map N e h st = Done st' /\
    load_slot st' (Z.of_nat e) = Done {| f := h; p := p s |} /\
    load_size st' (Z.of_nat e) = Done 1 /\
    (forall i, CS_FI_ st' e i = p_load {| f := h; p := p s |} i).
Proof.
  intros Hinv Hsz Hs H1.
  destruct (call_view st e sz 0 h Hinv Hsz ltac:(lia))
    as (fp & ss & s0 & _ & Hfp & Hss & Hsd & Hld & _ & E & Hw).
  assert (s0 = s) by congruence. subst s0.
  unfold cs_field_pointer_map. rewrite E, slot_direct by exact H1. simpl.
  destruct (Hw 1 {| f := h; p := p s |}) as (W1 & W2 & W3 & _).
  eexists. split; [reflexivity |].
  split; [exact W1 |]. split; [exact W2 | exact W3].
Qed.

(** A call on a readable slot whose width is negative: the zeroing loop
    starts before the array. *)
Lemma map_indexed_negative_width st e sz index h :
  registry_inv N slot_sound st ->
  load_size st (Z.of_nat e) = Done sz -> sz < 0 -> 0 < index < INT_MAX ->
  cs_field_pointer_map_indexed N e index h st = Abort out_of_bounds.
Proof.
  intros Hinv Hsz H1 Hi.
  destruct (call_view st e sz index h Hinv Hsz ltac:(lia))
    as (fp & ss & s & _ & _ & _ & _ & _ & _ & E & _).
  rewrite E, slot_grow_neg by auto. reflexivity.
Qed.

(** ** The claims *)

(** C6. [ensure_init] is idempotent: in every state a second call in a row
    changes nothing more than the first. When the singleton is unset the
    call allocates both arrays with [CS_FIELD_N_POINTERS] elements, every
    slot with a null direct handle (and [p] aiming at it) and every width
    0, and publishes the global pointer; when the singleton is set it
    changes nothing. *)
Theorem C6_ensure_init_idempotent (st : globals) :
  exists st1,
    cs_field_pointer_ensure_init N st = Done st1 /\
    cs_field_pointer_ensure_init N st1 = Done st1 /\
    (_field_pointer st = None ->
       _n_pointers st1 = Z.of_nat N /\
       _field_pointer st1
         = Some (replicate N (Some {| f := nullptr; p := own_f |})) /\
       _sublist_size st1 = Some (replicate N (Some 0)) /\
       cs_glob_field_pointers st1 = glob_field_pointer) /\
    (_field_pointer st <> None -> st1 = st).
Proof.
  rewrite ensure_init_spec.
  destruct (_field_pointer st) as [fp|] eqn:Hfp.
  - exists st. split; [reflexivity |]. split.
    + rewrite ensure_init_spec. now rewrite Hfp.
    + split; [discriminate | reflexivity].
  - exists (fresh N). split; [reflexivity |]. split.
    + now rewrite ensure_init_spec.
    + split; [intros _; repeat split | congruence].
Qed.

(** C7. From every reachable initialised state [destroy_all] succeeds and
    leaves the singleton unset (both file-scope pointers and the global
    one are null); a following [ensure_init] yields the state of a
    first-ever initialisation, in which every slot has a null direct
    handle and width 0. *)
Theorem C7_destroy_then_init (st : globals) :
  reachable N st -> initialized st ->
  exists st1,
    cs_field_pointer_destroy_all st = Done st1 /\
    _field_pointer st1 = None /\ _sublist_size st1 = None /\
    cs_glob_field_pointers st1 = glob_null /\
    cs_field_pointer_ensure_init N st1 = Done (fresh N) /\
    cs_field_pointer_ensure_init N startup = Done (fresh N) /\
    forall e, (e < N)%nat ->
      load_slot (fresh N) (Z.of_nat e) = Done {| f := nullptr; p := own_f |} /\
      load_size (fresh N) (Z.of_nat e) = Done 0.
Proof.
  intros Hr Hi. apply reachable_sound in Hr.
  rewrite (destroy_all_sound st Hr Hi). eexists. split; [reflexivity |].
  repeat split; try (rewrite ensure_init_spec; reflexivity);
    now apply fresh_cells.
Qed.

(** C2 (amended). [map(e, h)] acts according to the representation of
    slot [e] once the registry is initialised: while the slot is not
    expanded (width at most 1) the call sets the direct value [f] to [h]
    and the width to 1, leaving [p] as it is; on an expanded slot (width
    above 1) it stores [h] at position 0 of the expanded array and leaves
    the width unchanged. *)
Theorem C2_map_by_representation (st : globals) (e : nat) (h : cs_field_p) :
  reachable N st -> (e < N)%nat ->
  exists sz s st',
    load_size (ensured N st) (Z.of_nat e) = Done sz /\
    load_slot (ensured N st) (Z.of_nat e) = Done s /\
    cs_field_pointer_map N e h st = Done st' /\
    (sz <= 1 ->
       load_slot st' (Z.of_nat e) = Done {| f := h; p := p s |} /\
       load_size st' (Z.of_nat e) = Done 1) /\
    (1 < sz ->
       load_size st' (Z.of_nat e) = Done sz /\
       CS_FI_ st' e 0 = Done h).
Proof.
  intros Hr He. apply reachable_sound in Hr.
  pose proof (inv_ensured _ _ sound_slot0 Hr) as Hinv.
  destruct (ensured_readable st e Hr He) as (sz & Hsz).
  destruct (call_view _ e sz 0 h Hinv Hsz ltac:(lia))
    as (fp & ss & s & _ & Hfp & Hss & Hs & Hld & Hrd & E & Hw).
  unfold cs_field_pointer_map. rewrite map_indexed_ensured, E.
  exists sz, s.
  destruct (slot_map_cases sz s h Hs) as [(H1 & ->) | (H1 & a & Hp & Hl & ->)];
    simpl; eexists; (split; [exact Hsz |]); (split; [exact Hld |]);
    (split; [reflexivity |]).
  - destruct (Hw 1 {| f := h; p := p s |}) as (W1 & W2 & _).
    split; [auto | lia].
  - destruct (Hw sz {| f := f s; p := heap (<[0%nat := Some h]> a) |})
      as (W1 & W2 & W3 & _).
    split; [lia |]. intros _. split; [exact W2 |].
    rewrite W3. apply p_load_heap; [lia |].
    apply list_lookup_insert_eq. exact Hl.
Qed.

(** C3 (amended). In every state reached by calls whose sub-indices are
    below [SHRT_MAX], and for every valid enumerator [e], [map(e, h)]
    succeeds and the lookup of slot [e] at sub-index 0 then returns [h]. *)
Theorem C3_map_then_lookup (st : globals) (e : nat) (h : cs_field_p) :
  reachable_short N st -> (e < N)%nat ->
  exists st',
    cs_field_pointer_map N e h st = Done st' /\
    CS_FI_ st' e 0 = Done h.
Proof.
  intros Hr He. apply reachable_short_tight in Hr.
  pose proof (inv_ensured _ _ tight_slot0 Hr) as Htight.
  pose proof (inv_tight_sound _ Htight) as Hsound.
  destruct (ensured_initialized st) as (fp0 & Hfp0).
  destruct (inv_cells _ _ _ Htight Hfp0) as (ss0 & Hss0 & _ & _ & _ & _ & Hc).
  destruct (Hc e He) as (sz & s0 & Hsz0 & Hs0 & Ht).
  pose proof (load_size_nat _ _ _ _ Hss0 Hsz0) as Hsz.
  destruct (call_view _ e sz 0 h Hsound Hsz ltac:(lia))
    as (fp & ss & s & _ & Hfp & Hss & Hs & Hld & Hrd & E & Hw).
  assert (s0 = s).
  { pose proof (load_slot_nat _ _ _ _ Hfp0 Hs0). congruence. }
  subst s0.
  unfold cs_field_pointer_map. rewrite map_indexed_ensured, E.
  destruct (slot_map_cases sz s h Hs) as [(H1 & ->) | (H1 & a & Hp & Hl & ->)];
    simpl; eexists; (split; [reflexivity |]).
  - destruct (Hw 1 {| f := h; p := p s |}) as (_ & _ & W3 & _).
    rewrite W3. unfold slot_tight in Ht. unfold p_load. simpl.
    destruct (p s); [reflexivity | lia | contradiction].
  - destruct (Hw sz {| f := f s; p := heap (<[0%nat := Some h]> a) |})
      as (_ & _ & W3 & _).
    rewrite W3. apply p_load_heap; [lia |].
    apply list_lookup_insert_eq. exact Hl.
Qed.

(** C4 (amended). On a slot set by direct mapping (width 1, direct value
    [f s]), [map_indexed(e, index, h)] with [0 < index < SHRT_MAX] expands
    the slot: afterwards position 0 holds the former direct value,
    positions 1 to [index - 1] hold the null handle, position [index]
    holds [h], the width is [index + 1] and [p] refers to a heap array of
    that many elements. *)
Theorem C4_expand_direct_slot (st : globals) (e : nat) (index : Z)
    (h : cs_field_p) (s : cs_field_pointer_array_t) :
  reachable N st ->
  load_size st (Z.of_nat e) = Done 1 ->
  load_slot st (Z.of_nat e) = Done s ->
  0 < index < SHRT_MAX ->
  exists st',
    cs_field_pointer_map_indexed N e index h st = Done st' /\
    CS_FI_ st' e 0 = Done (f s) /\
    (forall j, 0 < j < index -> CS_FI_ st' e j = Done nullptr) /\
    CS_FI_ st' e index = Done h /\
    load_size st' (Z.of_nat e) = Done (index + 1) /\
    exists s', load_slot st' (Z.of_nat e) = Done s' /\
               heap_length s' = Some (index + 1).
Proof.
  intros Hr Hsz Hs Hi. apply reachable_sound in Hr.
  destruct (grow_view st e 1 index h Hr Hsz)
    as (s1 & a' & st' & Hs1 & _ & _ & E & Hg & W1 & W2 & W3);
    [lia | unfold SHRT_MAX, INT_MAX in *; lia |].
  assert (s1 = s) by congruence. subst s1.
  exists st'. split; [exact E |].
  rewrite to_short_id in W2 by (unfold SHRT_MAX in *; lia).
  repeat split.
  - rewrite W3. apply rd_Z; [lia |].
    destruct Hg as (_ & _ & _ & H0 & _). apply H0. lia.
  - intros j Hj. rewrite W3. eapply rd_grown_null; eauto; lia.
  - rewrite W3. eapply rd_grown_index; eauto; lia.
  - exact W2.
  - eexists. split; [exact W1 |]. unfold heap_length. simpl.
    destruct Hg as (Hl & _). rewrite Hl. f_equal. lia.
Qed.

(** C1 (amended). On an expanded slot of width [sz > 1],
    [map_indexed(e, index, h)] with [sz <= index < SHRT_MAX] grows the
    array: every handle stored at a position from 1 up to the old width
    keeps its place, the positions from the old width up to [index - 1]
    are set to the null handle, position [index] holds [h], the width
    becomes [index + 1] and [p] refers to a heap array of that many
    elements. (Nothing is stated about position 0.) *)
Theorem C1_grow_expanded_slot (st : globals) (e : nat) (sz index : Z)
    (h : cs_field_p) :
  reachable N st ->
  load_size st (Z.of_nat e) = Done sz ->
  1 < sz -> sz <= index < SHRT_MAX ->
  exists st',
    cs_field_pointer_map_indexed N e index h st = Done st' /\
    (forall j, 0 < j < sz -> CS_FI_ st' e j = CS_FI_ st e j) /\
    (forall j, sz <= j < index -> CS_FI_ st' e j = Done nullptr) /\
    CS_FI_ st' e index = Done h /\
    load_size st' (Z.of_nat e) = Done (index + 1) /\
    exists s', load_slot st' (Z.of_nat e) = Done s' /\
               heap_length s' = Some (index + 1).
Proof.
  intros Hr Hsz H1 Hi. apply reachable_sound in Hr.
  destruct (grow_view st e sz index h Hr Hsz)
    as (s & a' & st' & Hs & Hsd & R & E & Hg & W1 & W2 & W3);
    [lia | unfold SHRT_MAX, INT_MAX in *; lia |].
  exists st'. split; [exact E |].
  rewrite to_short_id in W2 by (unfold SHRT_MAX in *; lia).
  repeat split.
  - intros j Hj. rewrite W3, R.
    unfold slot_sound in Hsd. unfold p_load.
    destruct (p s) as [| a |] eqn:Hp; [lia | | contradiction].
    destruct Hsd as (Hs1 & Hs2 & Hs3).
    destruct Hg as (Hl & _ & _ & _ & Hk). rewrite Hp in Hk.
    unfold rd. destruct (j <? 0); [reflexivity |].
    rewrite (Hk (Z.to_nat j)) by lia.
    now rewrite lookup_resize by lia.
  - intros j Hj. rewrite W3. eapply rd_grown_null; eauto; lia.
  - rewrite W3. eapply rd_grown_index; eauto; lia.
  - exact W2.
  - eexists. split; [exact W1 |]. unfold heap_length. simpl.
    destruct Hg as (Hl & _). rewrite Hl. f_equal. lia.
Qed.

(** C5 (amended). In every state reached from the fresh initialised
    registry, a call of [ensure_init], [map] or [map_indexed] whose
    sub-index is below [SHRT_MAX] never decreases the width of any slot
    and never turns an expanded slot back into the inline representation;
    across sequences of such calls the widths therefore never decrease
    and a slot leaves the inline representation at most once. *)
Theorem C5_widths_only_grow (cs : list call) (c : call) (st st' : globals)
    (e : nat) (sz : Z) (s : cs_field_pointer_array_t) :
  run N cs (fresh N) = Done st ->
  is_mapping c = true -> fits_short c = true ->
  exec N c st = Done st' ->
  load_size st (Z.of_nat e) = Done sz ->
  load_slot st (Z.of_nat e) = Done s ->
  exists sz' s',
    load_size st' (Z.of_nat e) = Done sz' /\
    load_slot st' (Z.of_nat e) = Done s' /\
    sz <= sz' /\
    (~ inline s -> ~ inline s').
Proof.
  intros Hrun Hm Hf Hd Hsz Hs.
  pose proof (reachable_sound _ (run_fresh_reachable _ _ Hrun)) as Hinv.
  destruct (exec_view c st st' e sz s Hinv Hsz Hs Hm Hf Hd)
    as (sz' & s' & W1 & W2 & W3 & W4 & _).
  exists sz', s'. repeat split; auto.
Qed.

(** C8 (amended). [map_indexed(e, index, h)] has the precondition
    [e < CS_FIELD_N_POINTERS] and [index >= 0] (an enumerator is never
    negative): in every reachable state a call that violates either bound
    stops at an assertion. In every state reached by calls whose
    sub-indices are below [SHRT_MAX], a call of [map_indexed] or [map]
    that meets the precondition completes with every array access in
    bounds; the only other outcome is the overflow of [index + 1] at
    [index = INT_MAX]. *)
Theorem C8_contract_and_bounds (st : globals) (e : nat) (index : Z)
    (h : cs_field_p) :
  reachable N st ->
  (index < 0 ->
     cs_field_pointer_map_indexed N e index h st = Abort assert_failed) /\
  (0 <= index -> (N <= e)%nat ->
     cs_field_pointer_map_indexed N e index h st = Abort assert_failed) /\
  ((N <= e)%nat -> cs_field_pointer_map N e h st = Abort assert_failed) /\
  (reachable_short N st ->
     (0 <= index < INT_MAX -> (e < N)%nat ->
        exists st', cs_field_pointer_map_indexed N e index h st = Done st') /\
     (index = INT_MAX -> (e < N)%nat ->
        cs_field_pointer_map_indexed N e index h st = Abort signed_overflow) /\
     ((e < N)%nat -> exists st', cs_field_pointer_map N e h st = Done st')).
Proof.
  intros Hr0. apply reachable_sound in Hr0.
  assert (Hlow : forall i, i < 0 ->
            cs_field_pointer_map_indexed N e i h st = Abort assert_failed).
  { intros i Hi. unfold cs_field_pointer_map_indexed.
    destruct (Z.leb_spec 0 i); [lia | reflexivity]. }
  assert (Hhigh : forall i, 0 <= i -> (N <= e)%nat ->
            cs_field_pointer_map_indexed N e i h st = Abort assert_failed).
  { intros i Hi He. rewrite map_indexed_ensured.
    destruct (ensured_initialized st) as (fp & Hfp).
    destruct (inv_cells _ _ _ (inv_ensured _ _ sound_slot0 Hr0) Hfp)
      as (ss & _ & Hn & _).
    unfold cs_field_pointer_map_indexed. rewrite Hfp.
    destruct (Z.leb_spec 0 i); [| lia]. simpl. rewrite Hn.
    destruct (Z.ltb_spec (Z.of_nat e) (Z.of_nat N)); [lia | reflexivity]. }
  split; [apply Hlow |]. split; [apply Hhigh |].
  split; [intros He; apply Hhigh; [lia | exact He] |].
  intros Hr. apply reachable_short_tight in Hr.
  pose proof (inv_ensured _ _ tight_slot0 Hr) as Htight.
  destruct (ensured_initialized st) as (fp & Hfp).
  destruct (inv_cells _ _ _ Htight Hfp) as (ss & Hss & Hn & Hg & Hl & Hl' & Hc).
  assert (Hin : forall i, 0 <= i -> (e < N)%nat ->
            exists sz s, slot_tight sz s /\
              cs_field_pointer_map_indexed N e i h st =
              do r <- slot_map_indexed sz s i h ;
              Done (with_arrays (ensured N st)
                      (<[e := Some (snd r)]> fp) (<[e := Some (fst r)]> ss))).
  { intros i Hi He. rewrite map_indexed_ensured.
    destruct (map_indexed_init slot_tight e i h _ fp Htight Hfp Hi He)
      as (ss1 & sz & s & Hss1 & _ & _ & Ht & E).
    assert (ss1 = ss) by congruence. subst ss1. eauto. }
  assert (Hok : forall i, 0 <= i < INT_MAX -> (e < N)%nat ->
            exists st', cs_field_pointer_map_indexed N e i h st = Done st').
  { intros i Hi He. destruct (Hin i (proj1 Hi) He) as (sz & s & Ht & ->).
    destruct (slot_tight_total sz s i h Hi Ht) as (r & ->). simpl. eauto. }
  split; [apply Hok |]. split.
  - intros -> He.
    destruct (Hin INT_MAX ltac:(unfold INT_MAX; lia) He) as (sz & s & Ht & ->).
    rewrite slot_grow_overflow; [reflexivity | | lia].
    unfold slot_tight, SHRT_MAX, INT_MAX in *. destruct (p s); lia.
  - intros He. apply Hok; [unfold INT_MAX; lia | exact He].
Qed.

(** C9 (amended). In every initialised state reached by calls whose
    sub-indices are below [SHRT_MAX], the width tags the representation
    of every slot: the width is at most 1 exactly when [p] aims at the
    slot's own [f], and when the width exceeds 1 the heap array [p]
    refers to has exactly that many elements. *)
Theorem C9_width_tags_representation (st : globals) (e : nat) :
  reachable_short N st -> initialized st -> (e < N)%nat ->
  exists sz s,
    load_size st (Z.of_nat e) = Done sz /\
    load_slot st (Z.of_nat e) = Done s /\
    (sz <= 1 <-> inline s) /\
    (1 < sz -> heap_length s = Some sz).
Proof.
  intros Hr Hi He. apply reachable_short_tight in Hr.
  unfold initialized in Hi.
  destruct (_field_pointer st) as [fp|] eqn:Hfp; [| congruence].
  destruct (inv_cells _ _ _ Hr Hfp) as (ss & Hss & _ & _ & _ & _ & Hc).
  destruct (Hc e He) as (sz & s & Hsz & Hs & Ht).
  exists sz, s.
  split; [eapply load_size_nat; eauto |].
  split; [eapply load_slot_nat; eauto |].
  unfold slot_tight in Ht. unfold inline, heap_length.
  destruct (p s) as [| a |]; [| | contradiction].
  - split; [split; [reflexivity | lia] | lia].
  - destruct Ht as (H1 & H2 & _).
    split; [split; [lia | discriminate] | intros _; congruence].
Qed.

(** C10 (amended). Once slot [e] is expanded (width above 1), the calls
    of [ensure_init], [map] and [map_indexed] that follow, as long as
    their sub-indices are below [SHRT_MAX], leave the slot expanded and
    never modify its direct field [f]; in particular
    [map_indexed(e, 0, h)] on the expanded slot changes position 0 of the
    expanded array and nothing else in the registry. *)
Theorem C10_direct_field_frozen (st st' : globals) (e : nat) (sz : Z)
    (s : cs_field_pointer_array_t) (cs : list call) :
  reachable N st ->
  load_size st (Z.of_nat e) = Done sz -> 1 < sz ->
  load_slot st (Z.of_nat e) = Done s ->
  forallb is_mapping cs = true -> forallb fits_short cs = true ->
  run N cs st = Done st' ->
  (exists sz' s',
     load_size st' (Z.of_nat e) = Done sz' /\ 1 < sz' /\
     load_slot st' (Z.of_nat e) = Done s' /\ f s' = f s) /\
  (forall h, exists a st1,
     p s = heap a /\
     cs_field_pointer_map_indexed N e 0 h st = Done st1 /\
     load_slot st1 (Z.of_nat e)
       = Done {| f := f s; p := heap (<[0%nat := Some h]> a) |} /\
     load_size st1 (Z.of_nat e) = Done sz /\
     forall e', e' <> e ->
       load_slot st1 (Z.of_nat e') = load_slot st (Z.of_nat e') /\
       load_size st1 (Z.of_nat e') = load_size st (Z.of_nat e')).
Proof.
  intros Hr Hsz H1 Hs Hm Hf Hrun. apply reachable_sound in Hr. split.
  - revert st sz s Hr Hsz H1 Hs Hm Hf Hrun.
    induction cs as [|c cs' IH]; simpl; intros st sz s Hr Hsz H1 Hs Hm Hf Hrun.
    + injection Hrun as <-. exists sz, s. auto.
    + apply andb_prop in Hm as (Hm1 & Hm2).
      apply andb_prop in Hf as (Hf1 & Hf2).
      apply bind_Done in Hrun as (st1 & Hx & Hrun).
      destruct (exec_view c st st1 e sz s Hr Hsz Hs Hm1 Hf1 Hx)
        as (sz1 & s1 & W1 & W2 & W3 & _ & W5).
      destruct (IH st1 sz1 s1) as (sz' & s' & V1 & V2 & V3 & V4); auto.
      * eapply exec_sound; eauto.
      * lia.
      * exists sz', s'. repeat split; auto. rewrite V4. auto.
  - intros h.
    destruct (call_view st e sz 0 h Hr Hsz ltac:(lia))
      as (fp & ss & s0 & _ & Hfp & Hss & Hsd & Hld & _ & E & Hw).
    assert (s0 = s) by congruence. subst s0.
    destruct (slot_map_cases sz s h Hsd) as [(H2 & _) | (_ & a & Hp & Hl & Ec)];
      [lia |].
    rewrite Ec in E. simpl in E.
    destruct (Hw sz {| f := f s; p := heap (<[0%nat := Some h]> a) |})
      as (W1 & W2 & _ & W4).
    exists a. eexists. split; [exact Hp |]. split; [exact E |].
    split; [exact W1 |]. split; [exact W2 | exact W4].
Qed.

End Facts.

(** ** Facts on the concrete registries *)

Lemma st_direct_reachable : reachable_short 10 st_direct.
Proof. exists [map 0 (field_ref 1)]. split; reflexivity. Qed.

Lemma st_expanded_reachable : reachable_short 10 st_expanded.
Proof. exists [map_indexed 0 1 (field_ref 1)]. split; reflexivity. Qed.

Lemma st_remapped_reachable : reachable_short 10 st_remapped.
Proof.
  exists [map 0 (field_ref 1); map_indexed 0 1 (field_ref 2);
          map_indexed 0 0 (field_ref 3)].
  split; reflexivity.
Qed.

Lemma reachable_short_reachable N st : reachable_short N st -> reachable N st.
Proof. intros (cs & _ & H). now exists cs. Qed.

Lemma run_cons N c cs st :
  run N (c :: cs) st = do st' <- exec N c st ; run N cs st'.
Proof. reflexivity. Qed.

(** The registry after [map_indexed(0, 32767, h)] on a fresh registry of
    ten enumerators: slot 0 owns an array of 32768 handles and its width
    is stored as -32768. *)
Lemma past_short_from_startup h :
  exists st a',
    run 10 [map_indexed 0 32767 h] startup = Done st /\
    registry_inv 10 slot_sound st /\
    grown 0 32767 slot0 h a' /\
    load_slot st 0 = Done {| f := nullptr; p := heap a' |} /\
    load_size st 0 = Done (-32768) /\
    (forall i, CS_FI_ st 0 i = rd a' i).
Proof.
  destruct (grow_past_short 10 (fresh 10) 0 0 h)
    as (s & a' & st & Hs & E & Hinv & Hg & W1 & W2 & W3).
  { apply inv_fresh, sound_slot0. }
  { reflexivity. }
  { unfold SHRT_MAX. lia. }
  assert (s = slot0) by (vm_compute in Hs; now injection Hs as <-). subst s.
  exists st, a'.
  split; [| split; [exact Hinv |]; split; [exact Hg |]; split; [exact W1 |];
            split; [exact W2 | exact W3]].
  rewrite run_one. change (exec 10 (map_indexed 0 32767 h) startup)
    with (cs_field_pointer_map_indexed 10 0 SHRT_MAX h startup).
  rewrite map_indexed_uninit by reflexivity. exact E.
Qed.

(** The end-to-end scenarios of the specification, run on the model. *)
Example scenario_chemistry :
  (do st <- run 10 [map_indexed 3 0 (field_ref 1); map_indexed 3 1 (field_ref 2);
                    map_indexed 3 2 (field_ref 3)] startup ;
   do a <- CS_FI_ st 3 0 ; do b <- CS_FI_ st 3 1 ; do c <- CS_FI_ st 3 2 ;
   do w <- load_size st 3 ; Done (a, b, c, w))
  = Done (field_ref 1, field_ref 2, field_ref 3, 3).
Proof. reflexivity. Qed.

Example scenario_overwrite :
  (do st <- run 10 [map 7 (field_ref 1); map 7 (field_ref 2)] startup ;
   do a <- CS_FI_ st 7 0 ; do w <- load_size st 7 ; Done (a, w))
  = Done (field_ref 2, 1).
Proof. reflexivity. Qed.

(** ** Counterexamples to the claims as stated *)

(** C1 as stated fails twice. (i) Slot 0 is expanded to width 2 and its
    position 0 is then mapped to handle 3; growing the slot to index 2
    puts handle 1, the stale direct value [f], back at position 0, which
    lies below the old width. (ii) Growing an expanded slot to index 32767
    leaves the width at -32768, not at [index + 1 = 32768]. *)
Lemma C1_counterexample :
  (exists st',
     load_size st_remapped 0 = Done 2 /\
     CS_FI_ st_remapped 0 0 = Done (field_ref 3) /\
     cs_field_pointer_map_indexed 10 0 2 (field_ref 4) st_remapped = Done st' /\
     CS_FI_ st' 0 0 = Done (field_ref 1) /\
     CS_FI_ st' 0 0 <> CS_FI_ st_remapped 0 0) /\
  (exists st',
     load_size st_expanded 0 = Done 2 /\
     cs_field_pointer_map_indexed 10 0 32767 (field_ref 4) st_expanded = Done st' /\
     load_size st' 0 = Done (-32768) /\
     load_size st' 0 <> Done (32767 + 1)).
Proof.
  split.
  - eexists. split; [reflexivity |]. split; [reflexivity |].
    split; [vm_compute; reflexivity |]. split; [reflexivity | discriminate].
  - destruct (grow_past_short 10 st_expanded 0 2 (field_ref 4))
      as (s & a' & st' & _ & E & _ & _ & _ & W2 & _).
    { apply reachable_sound, reachable_short_reachable, st_expanded_reachable. }
    { reflexivity. }
    { unfold SHRT_MAX. lia. }
    exists st'. split; [reflexivity |]. split; [exact E |].
    split; [exact W2 |]. change (load_size st' (Z.of_nat 0)) with (load_size st' 0) in W2.
    rewrite W2. discriminate.
Qed.

(** C2 as stated fails on an expanded slot: [map(0, h)] on slot 0 of width
    2 leaves the width at 2 and the direct value [f] at handle 1; the
    handle goes to position 0 of the expanded array. *)
Lemma C2_counterexample :
  exists st',
    load_size st_expanded 0 = Done 2 /\
    load_slot st_expanded 0
      = Done {| f := nullptr; p := heap [Some nullptr; Some (field_ref 1)] |} /\
    cs_field_pointer_map 10 0 (field_ref 3) st_expanded = Done st' /\
    load_size st' 0 = Done 2 /\
    load_slot st' 0
      = Done {| f := nullptr;
                p := heap [Some (field_ref 3); Some (field_ref 1)] |}.
Proof.
  eexists. split; [reflexivity |]. split; [reflexivity |].
  split; [vm_compute; reflexivity |]. split; reflexivity.
Qed.

(** C3 as stated fails in a reachable state: after
    [map_indexed(0, 32767, h1)] the width of slot 0 is -32768, so
    [map(0, h2)] takes the direct path and writes [f], while the lookup at
    sub-index 0 reads the heap array and returns the null handle. *)
Lemma C3_counterexample :
  exists st st',
    run 10 [map_indexed 0 32767 (field_ref 1)] startup = Done st /\
    cs_field_pointer_map 10 0 (field_ref 2) st = Done st' /\
    CS_FI_ st' 0 0 = Done nullptr.
Proof.
  destruct (past_short_from_startup (field_ref 1))
    as (st & a' & Hrun & Hinv & Hg & W1 & W2 & W3).
  destruct (map_on_narrow_width 10 st 0 (-32768) _ (field_ref 2) Hinv W2 W1)
    as (st' & E & V1 & V2 & V3); [lia |].
  exists st, st'. split; [exact Hrun |]. split; [exact E |].
  rewrite V3. unfold p_load. cbn [p f].
  eapply rd_grown_null; [exact Hg | lia | lia].
Qed.

(** C4 as stated fails for [index = 32767]: the width of the slot becomes
    -32768, not [index + 1]. *)
Lemma C4_counterexample :
  exists st',
    load_size st_direct 0 = Done 1 /\
    cs_field_pointer_map_indexed 10 0 32767 (field_ref 2) st_direct = Done st' /\
    load_size st' 0 = Done (-32768).
Proof.
  destruct (grow_past_short 10 st_direct 0 1 (field_ref 2))
    as (s & a' & st' & _ & E & _ & _ & _ & W2 & _).
  { apply reachable_sound, reachable_short_reachable, st_direct_reachable. }
  { reflexivity. }
  { unfold SHRT_MAX. lia. }
  exists st'. split; [reflexivity |]. split; [exact E | exact W2].
Qed.

(** C5 as stated fails: on the fresh registry, [map_indexed(0, 32767, h)]
    takes the width of slot 0 from 0 down to -32768. *)
Lemma C5_counterexample :
  exists st',
    load_size (fresh 10) 0 = Done 0 /\
    exec 10 (map_indexed 0 32767 (field_ref 1)) (fresh 10) = Done st' /\
    load_size st' 0 = Done (-32768).
Proof.
  destruct (grow_past_short 10 (fresh 10) 0 0 (field_ref 1))
    as (s & a' & st' & _ & E & _ & _ & _ & W2 & _).
  { apply inv_fresh, sound_slot0. }
  { reflexivity. }
  { unfold SHRT_MAX. lia. }
  exists st'. split; [reflexivity |]. split; [exact E | exact W2].
Qed.

(** C8 as stated fails: after [map_indexed(0, 32767, h1)], the call
    [map_indexed(0, 3, h2)] meets the precondition ([0 < 10], [3 >= 0])
    and writes outside the array, at element -32768. *)
Lemma C8_counterexample :
  exists st,
    run 10 [map_indexed 0 32767 (field_ref 1)] startup = Done st /\
    cs_field_pointer_map_indexed 10 0 3 (field_ref 2) st = Abort out_of_bounds.
Proof.
  destruct (past_short_from_startup (field_ref 1))
    as (st & a' & Hrun & Hinv & Hg & W1 & W2 & W3).
  exists st. split; [exact Hrun |].
  apply (map_indexed_negative_width 10 st 0 (-32768)); auto;
    unfold INT_MAX; lia.
Qed.

(** C9 as stated fails: after [map_indexed(0, 32767, h)] the width of
    slot 0 is -32768, at most 1, while [p] refers to a heap array. *)
Lemma C9_counterexample :
  exists st s,
    run 10 [map_indexed 0 32767 (field_ref 1)] startup = Done st /\
    load_size st 0 = Done (-32768) /\
    load_slot st 0 = Done s /\
    ~ inline s.
Proof.
  destruct (past_short_from_startup (field_ref 1))
    as (st & a' & Hrun & Hinv & Hg & W1 & W2 & W3).
  exists st. eexists. split; [exact Hrun |]. split; [exact W2 |].
  split; [exact W1 | discriminate].
Qed.

(** C10 as stated fails: slot 0 is expanded with a null direct field;
    [map_indexed(0, 32767, h2)] then leaves the width at -32768, and the
    following [map(0, h3)] takes the direct path and overwrites [f]. *)
Lemma C10_counterexample :
  exists st' s',
    load_size st_expanded 0 = Done 2 /\
    load_slot st_expanded 0
      = Done {| f := nullptr; p := heap [Some nullptr; Some (field_ref 1)] |} /\
    run 10 [map_indexed 0 32767 (field_ref 2); map 0 (field_ref 3)] st_expanded
      = Done st' /\
    load_slot st' 0 = Done s' /\
    f s' = field_ref 3.
Proof.
  destruct (grow_past_short 10 st_expanded 0 2 (field_ref 2))
    as (s & a' & st1 & _ & E & Hinv & _ & W1 & W2 & _).
  { apply reachable_sound, reachable_short_reachable, st_expanded_reachable. }
  { reflexivity. }
  { unfold SHRT_MAX. lia. }
  destruct (map_on_narrow_width 10 st1 0 (-32768) _ (field_ref 3) Hinv W2 W1)
    as (st2 & E2 & V1 & _); [lia |].
  exists st2. eexists. split; [reflexivity |]. split; [reflexivity |].
  split; [| split; [exact V1 | reflexivity]].
  rewrite run_cons.
  change (exec 10 (map_indexed 0 32767 (field_ref 2)) st_expanded)
    with (cs_field_pointer_map_indexed 10 0 SHRT_MAX (field_ref 2) st_expanded).
  rewrite E. cbn [bind]. rewrite run_one. exact E2.
Qed.

(** ** The theorems at concrete registries *)

Lemma C7_witness :
  reachable 10 st_expanded /\ initialized st_expanded /\
  exists st1,
    cs_field_pointer_destroy_all st_expanded = Done st1 /\
    _field_pointer st1 = None /\ _sublist_size st1 = None /\
    cs_glob_field_pointers st1 = glob_null /\
    cs_field_pointer_ensure_init 10 st1 = Done (fresh 10) /\
    cs_field_pointer_ensure_init 10 startup = Done (fresh 10) /\
    forall e, (e < 10)%nat ->
      load_slot (fresh 10) (Z.of_nat e) = Done {| f := nullptr; p := own_f |} /\
      load_size (fresh 10) (Z.of_nat e) = Done 0.
Proof.
  assert (H1 : reachable 10 st_expanded).
  { exists [map_indexed 0 1 (field_ref 1)]. reflexivity. }
  assert (H2 : initialized st_expanded) by discriminate.
  split; [exact H1 |]. split; [exact H2 |].
  exact (C7_destroy_then_init 10 st_expanded H1 H2).
Defined.

Lemma C2_witness :
  reachable 10 st_expanded /\ (0 < 10)%nat /\
  exists sz s st',
    load_size (ensured 10 st_expanded) (Z.of_nat 0) = Done sz /\
    load_slot (ensured 10 st_expanded) (Z.of_nat 0) = Done s /\
    cs_field_pointer_map 10 0 (field_ref 3) st_expanded = Done st' /\
    (sz <= 1 ->
       load_slot st' (Z.of_nat 0) = Done {| f := field_ref 3; p := p s |} /\
       load_size st' (Z.of_nat 0) = Done 1) /\
    (1 < sz ->
       load_size st' (Z.of_nat 0) = Done sz /\
       CS_FI_ st' 0 0 = Done (field_ref 3)).
Proof.
  assert (H1 : reachable 10 st_expanded).
  { exists [map_indexed 0 1 (field_ref 1)]. reflexivity. }
  assert (H2 : (0 < 10)%nat) by lia.
  split; [exact H1 |]. split; [exact H2 |].
  exact (C2_map_by_representation 10 st_expanded 0 (field_ref 3) H1 H2).
Defined.

Lemma C3_witness :
  reachable_short 10 st_expanded /\ (0 < 10)%nat /\
  exists st',
    cs_field_pointer_map 10 0 (field_ref 3) st_expanded = Done st' /\
    CS_FI_ st' 0 0 = Done (field_ref 3).
Proof.
  assert (H1 : reachable_short 10 st_expanded).
  { exists [map_indexed 0 1 (field_ref 1)]. split; reflexivity. }
  assert (H2 : (0 < 10)%nat) by lia.
  split; [exact H1 |]. split; [exact H2 |].
  exact (C3_map_then_lookup 10 st_expanded 0 (field_ref 3) H1 H2).
Defined.

Lemma C4_witness :
  reachable 10 st_direct /\
  load_size st_direct (Z.of_nat 0) = Done 1 /\
  load_slot st_direct (Z.of_nat 0) = Done {| f := field_ref 1; p := own_f |} /\
  0 < 3 < SHRT_MAX /\
  exists st',
    cs_field_pointer_map_indexed 10 0 3 (field_ref 2) st_direct = Done st' /\
    CS_FI_ st' 0 0 = Done (field_ref 1) /\
    (forall j, 0 < j < 3 -> CS_FI_ st' 0 j = Done nullptr) /\
    CS_FI_ st' 0 3 = Done (field_ref 2) /\
    load_size st' (Z.of_nat 0) = Done (3 + 1) /\
    exists s', load_slot st' (Z.of_nat 0) = Done s' /\
               heap_length s' = Some (3 + 1).
Proof.
  assert (H1 : reachable 10 st_direct).
  { exists [map 0 (field_ref 1)]. reflexivity. }
  assert (H2 : load_size st_direct (Z.of_nat 0) = Done 1) by reflexivity.
  assert (H3 : load_slot st_direct (Z.of_nat 0)
               = Done {| f := field_ref 1; p := own_f |}) by reflexivity.
  assert (H4 : 0 < 3 < SHRT_MAX) by (unfold SHRT_MAX; lia).
  split; [exact H1 |]. split; [exact H2 |]. split; [exact H3 |].
  split; [exact H4 |].
  exact (C4_expand_direct_slot 10 st_direct 0 3 (field_ref 2) _ H1 H2 H3 H4).
Defined.

Lemma C1_witness :
  reachable 10 st_remapped /\
  load_size st_remapped (Z.of_nat 0) = Done 2 /\
  1 < 2 /\ 2 <= 4 < SHRT_MAX /\
  exists st',
    cs_field_pointer_map_indexed 10 0 4 (field_ref 4) st_remapped = Done st' /\
    (forall j, 0 < j < 2 -> CS_FI_ st' 0 j = CS_FI_ st_remapped 0 j) /\
    (forall j, 2 <= j < 4 -> CS_FI_ st' 0 j = Done nullptr) /\
    CS_FI_ st' 0 4 = Done (field_ref 4) /\
    load_size st' (Z.of_nat 0) = Done (4 + 1) /\
    exists s', load_slot st' (Z.of_nat 0) = Done s' /\
               heap_length s' = Some (4 + 1).
Proof.
  assert (H1 : reachable 10 st_remapped).
  { exists [map 0 (field_ref 1); map_indexed 0 1 (field_ref 2);
            map_indexed 0 0 (field_ref 3)]. reflexivity. }
  assert (H2 : load_size st_remapped (Z.of_nat 0) = Done 2) by reflexivity.
  assert (H3 : 1 < 2) by lia.
  assert (H4 : 2 <= 4 < SHRT_MAX) by (unfold SHRT_MAX; lia).
  split; [exact H1 |]. split; [exact H2 |]. split; [exact H3 |].
  split; [exact H4 |].
  exact (C1_grow_expanded_slot 10 st_remapped 0 2 4 (field_ref 4) H1 H2 H3 H4).
Defined.

Lemma C5_witness :
  run 10 [map 0 (field_ref 1)] (fresh 10) = Done st_direct /\
  is_mapping (map_indexed 0 1 (field_ref 2)) = true /\
  fits_short (map_indexed 0 1 (field_ref 2)) = true /\
  exec 10 (map_indexed 0 1 (field_ref 2)) st_direct = Done st_remapped_step /\
  load_size st_direct (Z.of_nat 0) = Done 1 /\
  load_slot st_direct (Z.of_nat 0) = Done {| f := field_ref 1; p := own_f |} /\
  exists sz' s',
    load_size st_remapped_step (Z.of_nat 0) = Done sz' /\
    load_slot st_remapped_step (Z.of_nat 0) = Done s' /\
    1 <= sz' /\
    (~ inline {| f := field_ref 1; p := own_f |} -> ~ inline s').
Proof.
  assert (H1 : run 10 [map 0 (field_ref 1)] (fresh 10) = Done st_direct)
    by reflexivity.
  assert (H2 : is_mapping (map_indexed 0 1 (field_ref 2)) = true) by reflexivity.
  assert (H3 : fits_short (map_indexed 0 1 (field_ref 2)) = true) by reflexivity.
  assert (H4 : exec 10 (map_indexed 0 1 (field_ref 2)) st_direct
               = Done st_remapped_step) by reflexivity.
  assert (H5 : load_size st_direct (Z.of_nat 0) = Done 1) by reflexivity.
  assert (H6 : load_slot st_direct (Z.of_nat 0)
               = Done {| f := field_ref 1; p := own_f |}) by reflexivity.
  repeat (split; [assumption |]).
  exact (C5_widths_only_grow 10 _ _ _ _ 0 1 _ H1 H2 H3 H4 H5 H6).
Defined.

Lemma C8_witness :
  reachable 10 st_expanded /\ reachable_short 10 st_expanded /\
  (-1 < 0 ->
     cs_field_pointer_map_indexed 10 0 (-1) (field_ref 2) st_expanded
     = Abort assert_failed) /\
  (0 <= 3 -> (10 <= 12)%nat ->
     cs_field_pointer_map_indexed 10 12 3 (field_ref 2) st_expanded
     = Abort assert_failed) /\
  (0 <= 3 < INT_MAX -> (0 < 10)%nat ->
     exists st',
       cs_field_pointer_map_indexed 10 0 3 (field_ref 2) st_expanded
       = Done st') /\
  ((0 < 10)%nat ->
     exists st', cs_field_pointer_map 10 0 (field_ref 2) st_expanded = Done st').
Proof.
  assert (H1 : reachable 10 st_expanded).
  { exists [map_indexed 0 1 (field_ref 1)]. reflexivity. }
  assert (H2 : reachable_short 10 st_expanded).
  { exists [map_indexed 0 1 (field_ref 1)]. split; reflexivity. }
  split; [exact H1 |]. split; [exact H2 |].
  split; [exact (proj1 (C8_contract_and_bounds 10 st_expanded 0 (-1)
                          (field_ref 2) H1)) |].
  split; [exact (proj1 (proj2 (C8_contract_and_bounds 10 st_expanded 12 3
                                 (field_ref 2) H1))) |].
  destruct (C8_contract_and_bounds 10 st_expanded 0 3 (field_ref 2) H1)
    as (_ & _ & _ & Hin).
  destruct (Hin H2) as (Hok & _ & Hmap).
  split; [exact Hok | exact Hmap].
Defined.

Lemma C9_witness :
  reachable_short 10 st_expanded /\ initialized st_expanded /\ (0 < 10)%nat /\
  exists sz s,
    load_size st_expanded (Z.of_nat 0) = Done sz /\
    load_slot st_expanded (Z.of_nat 0) = Done s /\
    (sz <= 1 <-> inline s) /\
    (1 < sz -> heap_length s = Some sz).
Proof.
  assert (H1 : reachable_short 10 st_expanded).
  { exists [map_indexed 0 1 (field_ref 1)]. split; reflexivity. }
  assert (H2 : initialized st_expanded) by discriminate.
  assert (H3 : (0 < 10)%nat) by lia.
  split; [exact H1 |]. split; [exact H2 |]. split; [exact H3 |].
  exact (C9_width_tags_representation 10 st_expanded 0 H1 H2 H3).
Defined.

Lemma C10_witness :
  reachable 10 st_expanded /\
  load_size st_expanded (Z.of_nat 0) = Done 2 /\ 1 < 2 /\
  load_slot st_expanded (Z.of_nat 0)
    = Done {| f := nullptr; p := heap [Some nullptr; Some (field_ref 1)] |} /\
  run 10 [map 0 (field_ref 3); map_indexed 0 4 (field_ref 4)] st_expanded
    = Done st_expanded_later /\
  exists sz' s',
    load_size st_expanded_later (Z.of_nat 0) = Done sz' /\ 1 < sz' /\
    load_slot st_expanded_later (Z.of_nat 0) = Done s' /\ f s' = nullptr.
Proof.
  assert (H1 : reachable 10 st_expanded).
  { exists [map_indexed 0 1 (field_ref 1)]. reflexivity. }
  assert (H2 : load_size st_expanded (Z.of_nat 0) = Done 2) by reflexivity.
  assert (H3 : 1 < 2) by lia.
  assert (H4 : load_slot st_expanded (Z.of_nat 0)
               = Done {| f := nullptr;
                         p := heap [Some nullptr; Some (field_ref 1)] |})
    by reflexivity.
  assert (H5 : run 10 [map 0 (field_ref 3); map_indexed 0 4 (field_ref 4)]
                 st_expanded = Done st_expanded_later) by reflexivity.
  repeat (split; [assumption |]).
  exact (proj1 (C10_direct_field_frozen 10 st_expanded st_expanded_later 0 2 _
                  [map 0 (field_ref 3); map_indexed 0 4 (field_ref 4)]
                  H1 H2 H3 H4 eq_refl eq_refl H5)).
Defined.

(** ** Further properties of the registry *)

Section MoreFacts.

Variable CS_FIELD_N_POINTERS : nat.
Abbreviation N := CS_FIELD_N_POINTERS.

Lemma glob_of_inv P st :
  registry_inv N P st -> initialized st ->
  cs_glob_field_pointers st = glob_field_pointer.
Proof.
  intros Hinv Hi. unfold initialized in Hi.
  destruct (_field_pointer st) as [fp|] eqn:Hfp; [| congruence].
  destruct (inv_cells _ _ _ _ Hinv Hfp) as (ss & _ & _ & Hg & _). exact Hg.
Qed.

Lemma CS_FI_same_slot st st' e i :
  cs_glob_field_pointers st' = cs_glob_field_pointers st ->
  load_slot st' (Z.of_nat e) = load_slot st (Z.of_nat e) ->
  CS_FI_ st' e i = CS_FI_ st e i.
Proof. intros Hg Hs. unfold CS_FI_. now rewrite Hg, Hs. Qed.

(** A successful call on slot [e'] of an initialised registry leaves the
    rest of the registry alone. *)
Lemma map_indexed_frame st st' e' index h :
  registry_inv N slot_sound st -> initialized st ->
  cs_field_pointer_map_indexed N e' index h st = Done st' ->
  initialized st' /\
  _n_pointers st' = _n_pointers st /\
  cs_glob_field_pointers st' = cs_glob_field_pointers st /\
  forall e, e <> e' ->
    load_slot st' (Z.of_nat e) = load_slot st (Z.of_nat e) /\
    load_size st' (Z.of_nat e) = load_size st (Z.of_nat e) /\
    forall i, CS_FI_ st' e i = CS_FI_ st e i.
Proof.
  intros Hinv Hi Hd. unfold initialized in Hi.
  destruct (_field_pointer st) as [fp|] eqn:Hfp; [| congruence].
  destruct (inv_cells _ _ _ _ Hinv Hfp) as (ss & Hss & Hn & _ & _ & _ & Hc).
  destruct (map_indexed_asserts N e' index h st st') as (H0 & He');
    [congruence | exact Hn | exact Hd |].
  destruct (Hc e' He') as (sz1 & s1 & Hsz1 & _).
  pose proof (load_size_nat _ _ _ _ Hss Hsz1) as Hld.
  destruct (call_view N st e' sz1 index h Hinv Hld H0)
    as (fp' & ss' & s & _ & _ & _ & _ & _ & _ & E & Hw).
  rewrite E in Hd. apply bind_Done in Hd as ([sz2 s2] & _ & Hd).
  injection Hd as <-. simpl.
  split; [discriminate |]. split; [reflexivity |]. split; [reflexivity |].
  intros e Hne. destruct (Hw sz2 s2) as (_ & _ & _ & W4).
  destruct (W4 e Hne) as (V1 & V2).
  split; [exact V1 |]. split; [exact V2 |].
  intros i. apply CS_FI_same_slot; [reflexivity | exact V1].
Qed.

Lemma ensured_sound st :
  registry_inv N slot_sound st ->
  registry_inv N slot_sound (ensured N st) /\ initialized (ensured N st).
Proof.
  intros H. split; [now apply inv_ensured; [apply sound_slot0 |] |].
  destruct (ensured_initialized N st) as (fp & Hfp).
  unfold initialized. congruence.
Qed.

(** X1. A successful [map_indexed(e', index, h)] changes nothing outside
    slot [e']: every other slot keeps its members, its width and all its
    lookups, and the element count and the published pointer stay as they
    are once the registry is initialised. *)
Theorem X1_map_indexed_frame (st st' : globals) (e e' : nat) (index : Z)
    (h : cs_field_p) :
  reachable N st ->
  cs_field_pointer_map_indexed N e' index h st = Done st' ->
  e <> e' ->
  load_slot st' (Z.of_nat e) = load_slot (ensured N st) (Z.of_nat e) /\
  load_size st' (Z.of_nat e) = load_size (ensured N st) (Z.of_nat e) /\
  (forall i, CS_FI_ st' e i = CS_FI_ (ensured N st) e i) /\
  _n_pointers st' = _n_pointers (ensured N st) /\
  cs_glob_field_pointers st' = cs_glob_field_pointers (ensured N st).
Proof.
  intros Hr Hd Hne. apply reachable_sound in Hr.
  destruct (ensured_sound st Hr) as (Hinv & Hi).
  rewrite map_indexed_ensured in Hd.
  destruct (map_indexed_frame _ _ _ _ _ Hinv Hi Hd) as (_ & Hn & Hg & Hf).
  destruct (Hf e Hne) as (V1 & V2 & V3). auto.
Qed.

Lemma rd_insert_ne {A} (a : block A) (i j : Z) (v : A) :
  0 <= j -> i <> j -> rd (<[Z.to_nat j := Some v]> a) i = rd a i.
Proof.
  intros Hj Hne. unfold rd. destruct (Z.ltb_spec i 0); [reflexivity |].
  rewrite list_lookup_insert_ne by lia. reflexivity.
Qed.

(** X2. On an expanded slot of width [sz], [map_indexed(e, index, h)] with
    [index < sz] overwrites in place: the call succeeds, position [index]
    holds [h], every other position reads as before, and the width, the
    direct field [f] and the size of the heap array are unchanged. *)
Theorem X2_overwrite_in_place (st : globals) (e : nat) (sz index : Z)
    (h : cs_field_p) :
  reachable N st ->
  load_size st (Z.of_nat e) = Done sz ->
  1 < sz -> 0 <= index < sz ->
  exists st' s s',
    cs_field_pointer_map_indexed N e index h st = Done st' /\
    load_size st' (Z.of_nat e) = Done sz /\
    CS_FI_ st' e index = Done h /\
    (forall i, i <> index -> CS_FI_ st' e i = CS_FI_ st e i) /\
    load_slot st (Z.of_nat e) = Done s /\
    load_slot st' (Z.of_nat e) = Done s' /\
    f s' = f s /\ heap_length s' = heap_length s.
Proof.
  intros Hr Hsz H1 Hi. apply reachable_sound in Hr.
  destruct (call_view N st e sz index h Hr Hsz ltac:(lia))
    as (fp & ss & s & _ & Hfp & Hss & Hsd & Hld & Hrd & E & Hw).
  unfold slot_sound in Hsd.
  destruct (p s) as [| a |] eqn:Hp; [lia | | contradiction].
  destruct Hsd as (Hs1 & Hs2 & Hs3).
  rewrite (slot_inplace sz s index h a) in E by (auto; lia). simpl in E.
  destruct (Hw sz {| f := f s; p := heap (<[Z.to_nat index := Some h]> a) |})
    as (W1 & W2 & W3 & _).
  eexists. exists s. eexists.
  split; [exact E |]. split; [exact W2 |]. split.
  { rewrite W3. apply p_load_heap; [lia |].
    apply list_lookup_insert_eq. lia. }
  split.
  { intros i Hne. rewrite W3, Hrd. unfold p_load. rewrite Hp. simpl.
    apply rd_insert_ne; lia. }
  split; [exact Hld |]. split; [exact W1 |]. split; [reflexivity |].
  unfold heap_length. rewrite Hp. simpl. now rewrite length_insert.
Qed.

(** *** Steps on a readable slot, with the registry that results *)

Lemma step_inplace st e sz index h :
  registry_inv N slot_sound st -> load_size st (Z.of_nat e) = Done sz ->
  1 < sz -> 0 <= index < sz ->
  exists st' s a,
    load_slot st (Z.of_nat e) = Done s /\ p s = heap a /\
    (Z.to_nat index < length a)%nat /\
    cs_field_pointer_map_indexed N e index h st = Done st' /\
    registry_inv N slot_sound st' /\
    load_size st' (Z.of_nat e) = Done sz /\
    load_slot st' (Z.of_nat e)
      = Done {| f := f s; p := heap (<[Z.to_nat index := Some h]> a) |} /\
    (forall i, CS_FI_ st' e i = rd (<[Z.to_nat index := Some h]> a) i) /\
    (forall i, CS_FI_ st e i = rd a i).
Proof.
  intros Hinv Hsz H1 Hi.
  destruct (call_view N st e sz index h Hinv Hsz ltac:(lia))
    as (fp & ss & s & _ & Hfp & Hss & Hsd & Hld & Hrd & E & Hw).
  unfold slot_sound in Hsd.
  destruct (p s) as [| a |] eqn:Hp; [lia | | contradiction].
  destruct Hsd as (Hs1 & Hs2 & Hs3).
  rewrite (slot_inplace sz s index h a) in E by (auto; lia). simpl in E.
  destruct (Hw sz {| f := f s; p := heap (<[Z.to_nat index := Some h]> a) |})
    as (W1 & W2 & W3 & _).
  eexists. exists s, a.
  split; [exact Hld |]. split; [exact Hp |]. split; [lia |].
  split; [exact E |].
  split; [eapply (exec_sound N (map_indexed e index h)); eauto |].
  split; [exact W2 |]. split; [exact W1 |]. split.
  - intros i. rewrite W3. reflexivity.
  - intros i. rewrite Hrd. unfold p_load. now rewrite Hp.
Qed.

Lemma step_grow st e sz index h :
  registry_inv N slot_sound st -> load_size st (Z.of_nat e) = Done sz ->
  0 <= sz <= index -> 0 < index < INT_MAX ->
  exists s a' st',
    load_slot st (Z.of_nat e) = Done s /\ slot_sound sz s /\
    (forall i, CS_FI_ st e i = p_load s i) /\
    cs_field_pointer_map_indexed N e index h st = Done st' /\
    registry_inv N slot_sound st' /\
    grown sz index s h a' /\
    load_slot st' (Z.of_nat e) = Done {| f := f s; p := heap a' |} /\
    load_size st' (Z.of_nat e) = Done (to_short (index + 1)) /\
    (forall i, CS_FI_ st' e i = rd a' i).
Proof.
  intros Hinv Hsz Hr Hi.
  destruct (grow_view N st e sz index h Hinv Hsz Hr Hi)
    as (s & a' & st' & Hs & Hsd & R & E & Hg & W1 & W2 & W3).
  exists s, a', st'.
  split; [exact Hs |]. split; [exact Hsd |]. split; [exact R |].
  split; [exact E |].
  split; [eapply (exec_sound N (map_indexed e index h)); eauto |].
  split; [exact Hg |]. split; [exact W1 |]. split; [exact W2 | exact W3].
Qed.

(** The cells a growing call keeps: those strictly between 0 and the old
    width, on a slot that was sound. *)
Lemma grown_keeps sz index s h a' a (i : Z) :
  grown sz index s h a' -> p s = heap a -> sz <= Z.of_nat (length a) ->
  sz <= index -> 0 < i < sz -> rd a' i = rd a i.
Proof.
  intros (Hl & _ & _ & _ & Hk) Hp Hlen Hle Hi. rewrite Hp in Hk.
  unfold rd. destruct (i <? 0); [reflexivity |].
  rewrite (Hk (Z.to_nat i)) by lia. now rewrite lookup_resize by lia.
Qed.

(** *** Mapping sub-index 0 only *)

Lemma exec_flat c st st' :
  is_direct c = true ->
  registry_inv N slot_flat st -> exec N c st = Done st' ->
  registry_inv N slot_flat st'.
Proof.
  intros Hc. apply exec_inv.
  - split; [reflexivity | left; split; reflexivity].
  - intros e index h sz s sz' s' Hin Hi (Hp & Hs) Hd.
    assert (index = 0) as ->.
    { destruct Hin as [-> | [_ ->]]; [| reflexivity].
      simpl in Hc. lia. }
    rewrite slot_direct in Hd by lia. injection Hd as <- <-.
    split; [exact Hp | now right].
Qed.

Lemma run_flat cs : forall st st',
  forallb is_direct cs = true ->
  registry_inv N slot_flat st -> run N cs st = Done st' ->
  registry_inv N slot_flat st'.
Proof.
  induction cs as [|c cs IH]; simpl; intros st st' Hf Hinv Hd.
  - now injection Hd as <-.
  - apply andb_prop in Hf as (Hc & Hf).
    apply bind_Done in Hd as (st1 & H1 & H2).
    eapply IH; [exact Hf | | exact H2]. eapply exec_flat; eauto.
Qed.

(** X3. Mapping sub-index 0 only never expands a slot: after any
    sequence of [ensure_init], [destroy_all], [map] and
    [map_indexed(_, 0, _)] calls from program start, every slot of an
    initialised registry still uses the inline representation and its
    width is at most 1. *)
Theorem X3_index_0_never_expands (cs : list call) (st : globals) (e : nat) :
  forallb is_direct cs = true ->
  run N cs startup = Done st ->
  initialized st -> (e < N)%nat ->
  exists sz s,
    load_size st (Z.of_nat e) = Done sz /\
    load_slot st (Z.of_nat e) = Done s /\
    sz <= 1 /\ inline s.
Proof.
  intros Hf Hrun Hi He.
  pose proof (run_flat cs startup st Hf (inv_startup N slot_flat) Hrun) as Hinv.
  unfold initialized in Hi.
  destruct (_field_pointer st) as [fp|] eqn:Hfp; [| congruence].
  destruct (inv_cells _ _ _ _ Hinv Hfp) as (ss & Hss & _ & _ & _ & _ & Hc).
  destruct (Hc e He) as (sz & s & Hsz & Hs & Hp & Hw).
  exists sz, s.
  split; [eapply load_size_nat; eauto |].
  split; [eapply load_slot_nat; eauto |].
  split; [lia | exact Hp].
Qed.

(** X4. Mapping out of order: on a slot of width [sz <= index2],
    [map_indexed(e, index2, h2)] followed by [map_indexed(e, index1, h1)]
    with [index1 < index2 < SHRT_MAX] both succeed, after which position
    [index2] holds [h2], position [index1] holds [h1] and the width is
    [index2 + 1]. *)
Theorem X4_out_of_order_mapping (st : globals) (e : nat) (sz index1 index2 : Z)
    (h1 h2 : cs_field_p) :
  reachable N st ->
  load_size st (Z.of_nat e) = Done sz ->
  0 <= sz <= index2 -> 0 <= index1 < index2 -> index2 < SHRT_MAX ->
  exists st1 st2,
    cs_field_pointer_map_indexed N e index2 h2 st = Done st1 /\
    cs_field_pointer_map_indexed N e index1 h1 st1 = Done st2 /\
    CS_FI_ st2 e index2 = Done h2 /\
    CS_FI_ st2 e index1 = Done h1 /\
    load_size st2 (Z.of_nat e) = Done (index2 + 1).
Proof.
  intros Hr Hsz Hs H1 H2. apply reachable_sound in Hr.
  destruct (step_grow st e sz index2 h2 Hr Hsz Hs)
    as (s & a' & st1 & _ & _ & _ & E1 & Hinv1 & Hg & W1 & W2 & W3).
  { unfold SHRT_MAX, INT_MAX in *. lia. }
  rewrite to_short_id in W2 by (unfold SHRT_MAX in *; lia).
  destruct (step_inplace st1 e (index2 + 1) index1 h1 Hinv1 W2)
    as (st2 & s1 & a1 & Hs1 & Hp1 & Hl1 & E2 & _ & V1 & _ & V3 & _);
    [lia | lia |].
  rewrite W1 in Hs1. injection Hs1 as <-. simpl in Hp1.
  injection Hp1 as <-.
  exists st1, st2. split; [exact E1 |]. split; [exact E2 |].
  destruct Hg as (Hl & Hidx & _).
  split; [| split; [| exact V1]].
  - rewrite V3, rd_insert_ne by lia. now apply rd_Z; [lia |].
  - rewrite V3. apply rd_Z; [lia |]. apply list_lookup_insert_eq. lia.
Qed.

(** *** Lifecycle *)

(** X5. In every reachable state the three pointers agree: the published
    [cs_glob_field_pointers] is set exactly when [_field_pointer] is, and
    so is [_sublist_size]; once set, both arrays have
    [CS_FIELD_N_POINTERS] elements and [_n_pointers] equals that count. *)
Theorem X5_pointers_agree (st : globals) :
  reachable N st ->
  (initialized st <-> cs_glob_field_pointers st = glob_field_pointer) /\
  (_field_pointer st = None <-> _sublist_size st = None) /\
  (initialized st ->
     _n_pointers st = Z.of_nat N /\
     (exists fp, _field_pointer st = Some fp /\ length fp = N) /\
     (exists ss, _sublist_size st = Some ss /\ length ss = N)).
Proof.
  intros Hr. apply reachable_sound in Hr. unfold initialized.
  destruct (_field_pointer st) as [fp|] eqn:Hfp.
  - destruct (inv_cells _ _ _ _ Hr Hfp) as (ss & Hss & Hn & Hg & Hl & Hl' & _).
    rewrite Hss, Hg. repeat split; try congruence; eauto.
  - unfold registry_inv in Hr. rewrite Hfp in Hr.
    destruct (_sublist_size st); [contradiction |]. rewrite Hr.
    repeat split; congruence.
Qed.

(** X6. Teardown is not idempotent: after a successful [destroy_all] of
    an initialised registry, [_n_pointers] still holds the element count,
    so a second [destroy_all] reads [_sublist_size[0]] through a null
    pointer (unless there is no enumerator at all); [map] or [ensure_init]
    must come first. *)
Theorem X6_second_destroy_faults (st : globals) :
  reachable N st -> initialized st ->
  exists st1,
    cs_field_pointer_destroy_all st = Done st1 /\
    _n_pointers st1 = Z.of_nat N /\
    cs_field_pointer_destroy_all st1
    = (if decide (N = 0%nat) then Done st1 else Abort null_pointer).
Proof.
  intros Hr Hi. apply reachable_sound in Hr.
  rewrite (destroy_all_sound N st Hr Hi). eexists.
  split; [reflexivity |]. split; [reflexivity |].
  unfold cs_field_pointer_destroy_all. simpl.
  rewrite Z.sub_0_r, Nat2Z.id.
  destruct N as [|n]; simpl; [| reflexivity].
  reflexivity.
Qed.

(** *** Lookups *)

(** X7. The lookups a slot answers: in an initialised state reached by
    calls whose sub-indices are below [SHRT_MAX], the lookup of slot [e]
    at sub-index [i] yields a handle (never an indeterminate cell) for
    [0 <= i < max(width, 1)] and lies outside the slot's storage for
    every other [i]. *)
Theorem X7_lookup_domain (st : globals) (e : nat) (i : Z) :
  reachable_short N st -> initialized st -> (e < N)%nat ->
  exists sz,
    load_size st (Z.of_nat e) = Done sz /\
    (0 <= i < Z.max sz 1 -> exists h, CS_FI_ st e i = Done h) /\
    (i < 0 \/ Z.max sz 1 <= i -> CS_FI_ st e i = Abort out_of_bounds).
Proof.
  intros Hr Hi He. apply reachable_short_tight in Hr.
  pose proof (glob_of_inv _ _ Hr Hi) as Hg.
  unfold initialized in Hi.
  destruct (_field_pointer st) as [fp|] eqn:Hfp; [| congruence].
  destruct (inv_cells _ _ _ _ Hr Hfp) as (ss & Hss & _ & _ & _ & _ & Hc).
  destruct (Hc e He) as (sz & s & Hsz & Hs & Ht).
  exists sz. split; [eapply load_size_nat; eauto |].
  rewrite (CS_FI_init st fp e s i Hg Hfp Hs).
  unfold slot_tight in Ht. unfold p_load.
  destruct (p s) as [| a |]; [| | contradiction].
  - assert (Z.max sz 1 = 1) as -> by lia. split.
    + intros H. destruct (Z.eqb_spec i 0); [eauto | lia].
    + intros H. destruct (Z.eqb_spec i 0); [lia | reflexivity].
  - destruct Ht as (H1 & H2 & H3).
    assert (Z.max sz 1 = sz) as -> by lia. split.
    + intros H.
      destruct (lookup_lt_is_Some_2 a (Z.to_nat i)) as [x Hx]; [lia |].
      destruct (Forall_lookup_1 _ _ _ _ H3 Hx) as [v ->].
      exists v. now apply rd_Z.
    + intros H. unfold rd. destruct (Z.ltb_spec i 0); [reflexivity |].
      rewrite lookup_ge_None_2 by lia. reflexivity.
Qed.

(** X8. A mapping at position 0 of an expanded slot does not survive the
    next growth: after [map_indexed(e, 0, h)] the lookup at 0 returns [h],
    but a following [map_indexed(e, index, h')] beyond the width copies
    the direct field [f], which the first call did not write, back to
    position 0. *)
Theorem X8_growth_restores_direct_field (st : globals) (e : nat)
    (sz index : Z) (s : cs_field_pointer_array_t) (h h' : cs_field_p) :
  reachable N st ->
  load_size st (Z.of_nat e) = Done sz ->
  load_slot st (Z.of_nat e) = Done s ->
  1 < sz -> sz <= index < INT_MAX ->
  exists st1 st2,
    cs_field_pointer_map_indexed N e 0 h st = Done st1 /\
    CS_FI_ st1 e 0 = Done h /\
    cs_field_pointer_map_indexed N e index h' st1 = Done st2 /\
    CS_FI_ st2 e 0 = Done (f s).
Proof.
  intros Hr Hsz Hs H1 Hi. apply reachable_sound in Hr.
  destruct (step_inplace st e sz 0 h Hr Hsz H1 ltac:(lia))
    as (st1 & s0 & a & Hs0 & Hp & Hl & E1 & Hinv1 & V1 & V2 & V3 & _).
  assert (s0 = s) by congruence. subst s0.
  destruct (step_grow st1 e sz index h' Hinv1 V1)
    as (s1 & a' & st2 & Hs1 & _ & _ & E2 & _ & Hg & _ & _ & W3);
    [lia | lia |].
  rewrite V2 in Hs1. injection Hs1 as <-.
  exists st1, st2. split; [exact E1 |]. split.
  { rewrite V3. apply rd_Z; [lia |]. apply list_lookup_insert_eq. exact Hl. }
  split; [exact E2 |].
  rewrite W3. apply rd_Z; [lia |].
  destruct Hg as (_ & _ & _ & H0 & _). apply H0. lia.
Qed.

(** X9. Widths beyond the [short] range: growing a slot to
    [index + 1] elements with [SHRT_MAX <= index < 65535] succeeds but
    stores the negative width [index + 1 - 65536]; from then on every
    call [map_indexed(e, index', _)] with [0 < index' < INT_MAX] on that
    slot aborts on a write before the start of the array. *)
Theorem X9_width_overflow (st : globals) (e : nat) (sz index : Z)
    (h : cs_field_p) :
  reachable N st ->
  load_size st (Z.of_nat e) = Done sz ->
  0 <= sz <= index -> SHRT_MAX <= index < 65535 ->
  exists st',
    cs_field_pointer_map_indexed N e index h st = Done st' /\
    load_size st' (Z.of_nat e) = Done (index + 1 - 65536) /\
    (exists s', load_slot st' (Z.of_nat e) = Done s' /\
                heap_length s' = Some (index + 1)) /\
    forall index' h', 0 < index' < INT_MAX ->
      cs_field_pointer_map_indexed N e index' h' st' = Abort out_of_bounds.
Proof.
  intros Hr Hsz Hs Hi. apply reachable_sound in Hr.
  destruct (step_grow st e sz index h Hr Hsz Hs)
    as (s & a' & st' & _ & _ & _ & E & Hinv' & Hg & W1 & W2 & _).
  { unfold SHRT_MAX, INT_MAX in *. lia. }
  assert (Hw : to_short (index + 1) = index + 1 - 65536).
  { unfold to_short, SHRT_MAX in *.
    replace (index + 1 + 32768) with (index + 1 - 32768 + 1 * 65536) by lia.
    rewrite Z.mod_add by lia. rewrite Z.mod_small by lia. lia. }
  rewrite Hw in W2.
  exists st'. split; [exact E |]. split; [exact W2 |]. split.
  - eexists. split; [exact W1 |]. unfold heap_length. simpl.
    destruct Hg as (Hl & _). rewrite Hl. f_equal. unfold SHRT_MAX in *. lia.
  - intros index' h' Hi'.
    apply (map_indexed_negative_width N st' e (index + 1 - 65536)); auto.
    lia.
Qed.

(** *** Tables of direct mappings *)

Lemma bind_Done_r {A} (c : outcome A) : (do x <- c ; Done x) = c.
Proof. now destruct c. Qed.

Lemma map_tight_step st e h :
  registry_inv N slot_tight st -> (e < N)%nat ->
  exists st',
    cs_field_pointer_map N e h st = Done st' /\
    registry_inv N slot_tight st' /\ initialized st' /\
    CS_FI_ st' e 0 = Done h /\
    forall e', e' <> e ->
      load_slot st' (Z.of_nat e') = load_slot (ensured N st) (Z.of_nat e') /\
      load_size st' (Z.of_nat e') = load_size (ensured N st) (Z.of_nat e') /\
      forall i, CS_FI_ st' e' i = CS_FI_ (ensured N st) e' i.
Proof.
  intros Ht He.
  pose proof (inv_ensured N _ _ tight_slot0 Ht) as Ht0.
  pose proof (inv_tight_sound N _ Ht0) as Hs0.
  destruct (ensured_sound st (inv_tight_sound N _ Ht)) as (_ & Hi0).
  destruct (ensured_readable N st e (inv_tight_sound N _ Ht) He) as (sz & Hsz).
  destruct (init_view N slot_tight _ e sz Ht0 Hsz)
    as (fp & ss & s & Hfp & Hss & Hg & _ & _ & _ & _ & _ & Htight & Hld).
  destruct (call_view N _ e sz 0 h Hs0 Hsz ltac:(lia))
    as (fp' & ss' & s' & _ & _ & _ & Hsd & Hld' & _ & E & Hw).
  assert (s' = s) by congruence. subst s'.
  assert (Hd : exists st',
             cs_field_pointer_map_indexed N e 0 h (ensured N st) = Done st' /\
             CS_FI_ st' e 0 = Done h).
  { rewrite E.
    destruct (slot_map_cases sz s h Hsd) as [(H1 & ->) | (H1 & a & Hp & Hl & ->)];
      simpl; eexists; (split; [reflexivity |]).
    - destruct (Hw 1 {| f := h; p := p s |}) as (_ & _ & W3 & _).
      rewrite W3. unfold slot_tight in Htight. unfold p_load. simpl.
      destruct (p s); [reflexivity | lia | contradiction].
    - destruct (Hw sz {| f := f s; p := heap (<[0%nat := Some h]> a) |})
        as (_ & _ & W3 & _).
      rewrite W3. apply p_load_heap; [lia |].
      apply list_lookup_insert_eq. exact Hl. }
  destruct Hd as (st' & Hd & Hl).
  assert (Hd0 : cs_field_pointer_map N e h st = Done st').
  { unfold cs_field_pointer_map. now rewrite map_indexed_ensured. }
  exists st'. split; [exact Hd0 |].
  split; [eapply (exec_tight N (map e h)); eauto |].
  destruct (map_indexed_frame _ _ _ _ _ Hs0 Hi0 Hd) as (Hi' & _ & _ & Hf).
  split; [exact Hi' |]. split; [exact Hl | exact Hf].
Qed.

Lemma ensured_id st : initialized st -> ensured N st = st.
Proof.
  unfold initialized, ensured. destruct (_field_pointer st); congruence.
Qed.

(** A table of direct mappings with pairwise distinct enumerators: every
    entry can be looked up afterwards, and no other slot changes. *)
Lemma run_maps (l : list (nat * cs_field_p)) :
  forall st,
    registry_inv N slot_tight st -> initialized st ->
    NoDup (fst <$> l) -> Forall (fun eh => (fst eh < N)%nat) l ->
    exists st',
      run N (map_calls l) st = Done st' /\
      registry_inv N slot_tight st' /\ initialized st' /\
      (forall e h, (e, h) ∈ l -> CS_FI_ st' e 0 = Done h) /\
      (forall e, e ∉ (fst <$> l) ->
         load_slot st' (Z.of_nat e) = load_slot st (Z.of_nat e) /\
         load_size st' (Z.of_nat e) = load_size st (Z.of_nat e) /\
         forall i, CS_FI_ st' e i = CS_FI_ st e i).
Proof.
  induction l as [|[e1 h1] l IH]; intros st Ht Hi Hnd Hlt.
  - exists st. simpl. repeat split; auto. intros e h Hin. inversion Hin.
  - simpl in Hnd. apply NoDup_cons in Hnd as (Hnin & Hnd).
    apply Forall_cons in Hlt as (He1 & Hlt). simpl in He1.
    destruct (map_tight_step st e1 h1 Ht He1) as (st1 & E1 & Ht1 & Hi1 & L1 & F1).
    rewrite (ensured_id st Hi) in F1.
    destruct (IH st1 Ht1 Hi1 Hnd Hlt) as (st' & E & Ht' & Hi' & L & F).
    exists st'. split.
    { unfold map_calls. simpl. rewrite E1. simpl. exact E. }
    split; [exact Ht' |]. split; [exact Hi' |]. split.
    + intros e h Hin. apply elem_of_cons in Hin as [Heq | Hin].
      * injection Heq as -> ->.
        destruct (F e1 Hnin) as (_ & _ & F3). now rewrite F3.
      * now apply L.
    + intros e Hne. simpl in Hne. apply not_elem_of_cons in Hne as (Hne & Hnl).
      destruct (F e Hnl) as (G1 & G2 & G3).
      destruct (F1 e Hne) as (K1 & K2 & K3).
      split; [congruence |]. split; [congruence |].
      intros i. now rewrite G3, K3.
Qed.

Lemma run_maps_ensured l st :
  l <> [] -> run N (map_calls l) st = run N (map_calls l) (ensured N st).
Proof.
  destruct l as [|[e h] l]; [congruence |]. intros _.
  unfold map_calls. simpl. unfold cs_field_pointer_map.
  now rewrite map_indexed_ensured.
Qed.

End MoreFacts.

(** ** The mapping helpers *)

Section HelperFacts.

Variable CS_FIELD_N_POINTERS : nat.
Variable CS_ENUMF_ : Enumf.name -> nat.
Variable cs_field_by_name_try : String.string -> cs_field_p.
Variable cs_field_by_id : Z -> outcome cs_field_p.

(** The enumerators are distinct values below the element count. *)
Hypothesis CS_ENUMF_inj : forall a b, CS_ENUMF_ a = CS_ENUMF_ b -> a = b.
Hypothesis CS_ENUMF_lt : forall a, (CS_ENUMF_ a < CS_FIELD_N_POINTERS)%nat.

Abbreviation N := CS_FIELD_N_POINTERS.
Abbreviation chem := (CS_ENUMF_ Enumf.chemistry).

Lemma same_elsewhere_refl e0 st : same_elsewhere e0 st st.
Proof. intros e _. auto. Qed.

Lemma same_elsewhere_trans e0 st1 st2 st3 :
  same_elsewhere e0 st1 st2 -> same_elsewhere e0 st2 st3 ->
  same_elsewhere e0 st1 st3.
Proof.
  intros H12 H23 e Hne.
  destruct (H12 e Hne) as (A1 & A2 & A3), (H23 e Hne) as (B1 & B2 & B3).
  split; [congruence |]. split; [congruence |].
  intros i. now rewrite B3, A3.
Qed.

Lemma rd_const_nat (a : list Z) (i : nat) (v : Z) :
  a !! i = Some v -> rd_const a (Z.of_nat i) = Done v.
Proof.
  intros H. unfold rd_const.
  destruct (Z.ltb_spec (Z.of_nat i) 0); [lia |]. now rewrite Nat2Z.id, H.
Qed.

Lemma readable_initialized st e sz :
  registry_inv N slot_sound st -> load_size st (Z.of_nat e) = Done sz ->
  initialized st.
Proof.
  intros Hinv Hsz.
  destruct (init_view N _ _ _ _ Hinv Hsz) as (fp & ss & s & Hfp & _).
  unfold initialized. congruence.
Qed.

(** The species loop from counter [j >= 1] on a chemistry slot of width
    [w >= j] whose direct field is [v]. *)
Lemma species_loop_spec (k : nat) :
  forall (j : nat) (st : globals) (w : Z) (v : cs_field_p) (ids : list Z),
    registry_inv N slot_tight st ->
    load_size st (Z.of_nat chem) = Done w ->
    (exists s, load_slot st (Z.of_nat chem) = Done s /\ f s = v) ->
    (1 <= j)%nat -> Z.of_nat j <= w -> Z.of_nat (j + k) <= SHRT_MAX ->
    (forall i, (j <= i < j + k)%nat ->
       exists id h, ids !! i = Some id /\ cs_field_by_id id = Done h) ->
    exists st',
      _species_loop N CS_ENUMF_ cs_field_by_id k (Z.of_nat j) ids st = Done st' /\
      registry_inv N slot_tight st' /\
      load_size st' (Z.of_nat chem) = Done (Z.max w (Z.of_nat (j + k))) /\
      (exists s', load_slot st' (Z.of_nat chem) = Done s' /\ f s' = v) /\
      (forall i id, (j <= i < j + k)%nat -> ids !! i = Some id ->
         CS_FI_ st' chem (Z.of_nat i) = cs_field_by_id id) /\
      (forall i : Z, 0 < i < Z.of_nat j \/ Z.of_nat (j + k) <= i < w ->
         CS_FI_ st' chem i = CS_FI_ st chem i) /\
      CS_FI_ st' chem 0
        = (if decide (w < Z.of_nat (j + k)) then Done v else CS_FI_ st chem 0) /\
      same_elsewhere chem st st'.
Proof.
  induction k as [|k IH]; intros j st w v ids Ht Hsz Hv Hj Hjw Hn Hids.
  - exists st. simpl. rewrite Nat.add_0_r.
    split; [reflexivity |]. split; [exact Ht |].
    split; [rewrite Z.max_l by lia; exact Hsz |]. split; [exact Hv |].
    split; [intros i id Hi; lia |]. split; [reflexivity |].
    split; [| apply same_elsewhere_refl].
    destruct (decide (w < Z.of_nat j)); [lia | reflexivity].
  - pose proof (inv_tight_sound N _ Ht) as Hs.
    pose proof (readable_initialized _ _ _ Hs Hsz) as Hinit.
    destruct (Hids j ltac:(lia)) as (id & h & Hid & Hby).
    destruct Hv as (s & Hls & Hfs).
    assert (Hfit : fits_short (map_indexed chem (Z.of_nat j) h) = true).
    { simpl. apply Z.ltb_lt. lia. }
    cbn [_species_loop]. rewrite (rd_const_nat _ _ _ Hid). cbn [bind].
    rewrite Hby. cbn [bind].
    replace (Z.of_nat j + 1) with (Z.of_nat (S j)) by lia.
    destruct (decide (Z.of_nat j < w)) as [Hlt | Hge].
    + destruct (step_inplace N st chem w (Z.of_nat j) h Hs Hsz)
        as (st1 & s0 & a & Hs0 & Hp & Hl & E1 & _ & V1 & V2 & V3 & V4);
        [lia | lia |].
      assert (s0 = s) by congruence. subst s0.
      rewrite E1. cbn [bind].
      pose proof (exec_tight N _ _ _ Hfit Ht E1) as Ht1.
      destruct (map_indexed_frame N _ _ _ _ _ Hs Hinit E1) as (_ & _ & _ & F1).
      destruct (IH (S j) st1 w v ids Ht1 V1) as
        (st' & E & Ht' & W & Hv' & L & K & Z0 & F); try lia.
      { eexists. split; [exact V2 | exact Hfs]. }
      { intros i Hi. apply Hids. lia. }
      exists st'. split; [exact E |]. split; [exact Ht' |].
      replace (j + S k)%nat with (S j + k)%nat by lia.
      split; [exact W |]. split; [exact Hv' |]. split.
      { intros i id' Hi Hid'. destruct (decide (i = j)) as [-> | Hne].
        - rewrite K by lia. rewrite V3.
          assert (id' = id) by congruence. subst id'. rewrite Hby.
          apply rd_Z; [lia |]. rewrite Nat2Z.id.
          apply list_lookup_insert_eq. lia.
        - apply L; [lia | exact Hid']. }
      split.
      { intros i Hi. rewrite K by lia. rewrite V3, V4.
        apply rd_insert_ne; lia. }
      split; [| exact (same_elsewhere_trans _ _ _ _ F1 F)].
      rewrite Z0. destruct (decide (w < Z.of_nat (S j + k))); [reflexivity |].
      rewrite V3, V4. apply rd_insert_ne; lia.
    + assert (w = Z.of_nat j) by lia. subst w.
      destruct (step_grow N st chem (Z.of_nat j) (Z.of_nat j) h Hs Hsz)
        as (s0 & a' & st1 & Hs0 & Hsd & R & E1 & _ & Hg & W1 & W2 & W3);
        [lia | unfold SHRT_MAX, INT_MAX in *; lia |].
      assert (s0 = s) by congruence. subst s0.
      rewrite to_short_id in W2 by (unfold SHRT_MAX in *; lia).
      rewrite E1. cbn [bind].
      pose proof (exec_tight N _ _ _ Hfit Ht E1) as Ht1.
      destruct (map_indexed_frame N _ _ _ _ _ Hs Hinit E1) as (_ & _ & _ & F1).
      destruct (IH (S j) st1 (Z.of_nat j + 1) v ids Ht1 W2) as
        (st' & E & Ht' & W & Hv' & L & K & Z0 & F); try lia.
      { eexists. split; [exact W1 | exact Hfs]. }
      { intros i Hi. apply Hids. lia. }
      assert (H0 : CS_FI_ st1 chem 0 = Done v).
      { rewrite W3. apply rd_Z; [lia |].
        destruct Hg as (_ & _ & _ & G0 & _). rewrite <- Hfs. apply G0. lia. }
      exists st'. split; [exact E |]. split; [exact Ht' |].
      replace (j + S k)%nat with (S j + k)%nat by lia.
      split; [rewrite W; f_equal; lia |]. split; [exact Hv' |]. split.
      { intros i id' Hi Hid'. destruct (decide (i = j)) as [-> | Hne].
        - rewrite K by lia. rewrite W3.
          assert (id' = id) by congruence. subst id'. rewrite Hby.
          eapply rd_grown_index; [exact Hg | lia].
        - apply L; [lia | exact Hid']. }
      split.
      { intros i Hi. rewrite K by lia. rewrite W3, R.
        pose proof (init_view N slot_tight _ _ _ Ht Hsz)
          as (fp & ss & s1 & _ & _ & _ & _ & _ & _ & _ & _ & Hts & Hls1).
        assert (s1 = s) by congruence. subst s1.
        unfold slot_tight in Hts. unfold p_load.
        destruct (p s) as [| a |] eqn:Hp; [lia | | contradiction].
        destruct Hts as (T1 & T2 & T3).
        eapply grown_keeps; [exact Hg | exact Hp | lia | lia | lia]. }
      split; [| exact (same_elsewhere_trans _ _ _ _ F1 F)].
      destruct (decide (Z.of_nat j < Z.of_nat (S j + k))); [| lia].
      rewrite Z0. destruct (decide (Z.of_nat j + 1 < Z.of_nat (S j + k)));
        [reflexivity | exact H0].
Qed.

(** *** The helpers as tables *)

Lemma map_base_run st :
  cs_field_pointer_map_base N CS_ENUMF_ cs_field_by_name_try st
  = run N (map_calls (base_table CS_ENUMF_ cs_field_by_name_try)) st.
Proof.
  unfold cs_field_pointer_map_base, base_table, map_calls.
  cbn [fmap list_fmap fst snd run exec].
  repeat match goal with
         | |- bind ?c _ = bind ?c _ =>
             destruct c; cbn [bind]; [| reflexivity]
         end.
  now rewrite bind_Done_r.
Qed.

Lemma map_atmospheric_run n ids st :
  cs_field_pointer_map_atmospheric N CS_ENUMF_ cs_field_by_name_try
    cs_field_by_id n ids st
  = (do st3 <- run N (map_calls (atmospheric_table CS_ENUMF_ cs_field_by_name_try)) st ;
     _species_loop N CS_ENUMF_ cs_field_by_id (Z.to_nat (n - 0)) 0 ids st3).
Proof.
  unfold cs_field_pointer_map_atmospheric, atmospheric_table, map_calls.
  cbn [fmap list_fmap fst snd run exec].
  repeat match goal with
         | |- bind ?c _ = bind (bind ?c _) _ =>
             destruct c; cbn [bind]; [| reflexivity]
         end.
  reflexivity.
Qed.

Lemma NoDup_enumf (l : list Enumf.name) :
  NoDup l -> NoDup (CS_ENUMF_ <$> l).
Proof.
  intros H. apply NoDup_fmap_2_strong; [| exact H].
  intros a b _ _. apply CS_ENUMF_inj.
Qed.

Lemma base_table_NoDup :
  NoDup (fst <$> base_table CS_ENUMF_ cs_field_by_name_try).
Proof.
  apply (NoDup_enumf [Enumf.dt; Enumf.hybrid_blend; Enumf.h; Enumf.t; Enumf.cp;
                      Enumf.lambda; Enumf.th_diff; Enumf.vism; Enumf.poro;
                      Enumf.t_poro]).
  repeat (apply NoDup_cons; split; [rewrite ?elem_of_cons, elem_of_nil; intuition discriminate |]).
  apply NoDup_nil_2.
Qed.

Lemma atmospheric_table_NoDup :
  NoDup (fst <$> atmospheric_table CS_ENUMF_ cs_field_by_name_try).
Proof.
  apply (NoDup_enumf [Enumf.pot_t; Enumf.ym_w; Enumf.ntdrp]).
  repeat (apply NoDup_cons; split; [rewrite ?elem_of_cons, elem_of_nil; intuition discriminate |]).
  apply NoDup_nil_2.
Qed.

(** A non-empty table of direct mappings, from any state reached within
    the [short] range. *)
Lemma run_table l st :
  l <> [] -> registry_inv N slot_tight st ->
  NoDup (fst <$> l) -> Forall (fun eh => (fst eh < N)%nat) l ->
  exists st',
    run N (map_calls l) st = Done st' /\
    registry_inv N slot_tight st' /\ initialized st' /\
    (forall e h, (e, h) ∈ l -> CS_FI_ st' e 0 = Done h) /\
    (forall e, e ∉ (fst <$> l) ->
       load_slot st' (Z.of_nat e) = load_slot (ensured N st) (Z.of_nat e) /\
       load_size st' (Z.of_nat e) = load_size (ensured N st) (Z.of_nat e) /\
       forall i, CS_FI_ st' e i = CS_FI_ (ensured N st) e i).
Proof.
  intros Hl Ht Hnd Hlt. rewrite (run_maps_ensured N l st Hl).
  apply run_maps; auto.
  - now apply inv_ensured; [apply tight_slot0 |].
  - destruct (ensured_initialized N st) as (fp & Hfp).
    unfold initialized. congruence.
Qed.

(** X10. [map_base] on any state reached within the [short] range
    succeeds; afterwards the lookup at sub-index 0 of each of its ten
    enumerators returns the handle the name lookup gave for the
    corresponding field name (the null handle for a field that does not
    exist), and every other slot reads as it did once the registry was
    initialised. *)
Theorem X10_map_base (st : globals) :
  reachable_short N st ->
  exists st',
    cs_field_pointer_map_base N CS_ENUMF_ cs_field_by_name_try st = Done st' /\
    (forall e h, (e, h) ∈ base_table CS_ENUMF_ cs_field_by_name_try ->
       CS_FI_ st' e 0 = Done h) /\
    (forall e, e ∉ (fst <$> base_table CS_ENUMF_ cs_field_by_name_try) ->
       load_slot st' (Z.of_nat e) = load_slot (ensured N st) (Z.of_nat e) /\
       load_size st' (Z.of_nat e) = load_size (ensured N st) (Z.of_nat e) /\
       forall i, CS_FI_ st' e i = CS_FI_ (ensured N st) e i).
Proof.
  intros Hr. apply reachable_short_tight in Hr.
  destruct (run_table (base_table CS_ENUMF_ cs_field_by_name_try) st)
    as (st' & E & _ & _ & L & F).
  - discriminate.
  - exact Hr.
  - apply base_table_NoDup.
  - repeat (apply Forall_cons; split; [apply CS_ENUMF_lt |]). apply Forall_nil_2.
  - exists st'. rewrite map_base_run. auto.
Qed.

(** X11. [map_boundary] on any state reached within the [short] range
    succeeds; afterwards the lookup at sub-index 0 of its enumerator
    returns the handle found for "boundary_temperature", and every other
    slot reads as it did once the registry was initialised. *)
Theorem X11_map_boundary (st : globals) :
  reachable_short N st ->
  exists st',
    cs_field_pointer_map_boundary N CS_ENUMF_ cs_field_by_name_try st = Done st' /\
    CS_FI_ st' (CS_ENUMF_ Enumf.t_b) 0
      = Done (cs_field_by_name_try "boundary_temperature"%string) /\
    same_elsewhere (CS_ENUMF_ Enumf.t_b) (ensured N st) st'.
Proof.
  intros Hr. apply reachable_short_tight in Hr.
  destruct (map_tight_step N st (CS_ENUMF_ Enumf.t_b)
              (cs_field_by_name_try "boundary_temperature"%string) Hr
              (CS_ENUMF_lt _)) as (st' & E & _ & _ & L & F).
  exists st'. auto.
Qed.

(** *** [map_atmospheric] *)

Abbreviation atmo_table := (atmospheric_table CS_ENUMF_ cs_field_by_name_try).

Lemma chem_not_in_atmo_table : chem ∉ (fst <$> atmo_table).
Proof.
  unfold atmospheric_table. simpl. rewrite !elem_of_cons, elem_of_nil.
  intros [H | [H | [H | []]]];
    pose proof (CS_ENUMF_inj _ _ H) as H'; discriminate H'.
Qed.

(** The three direct mappings that precede the species loop. *)
Lemma atmospheric_prefix st :
  registry_inv N slot_tight st ->
  exists st3,
    run N (map_calls atmo_table) st = Done st3 /\
    registry_inv N slot_tight st3 /\ initialized st3 /\
    (forall e h, (e, h) ∈ atmo_table -> CS_FI_ st3 e 0 = Done h) /\
    (forall e, e ∉ (fst <$> atmo_table) ->
       load_slot st3 (Z.of_nat e) = load_slot (ensured N st) (Z.of_nat e) /\
       load_size st3 (Z.of_nat e) = load_size (ensured N st) (Z.of_nat e) /\
       forall i, CS_FI_ st3 e i = CS_FI_ (ensured N st) e i).
Proof.
  intros Ht. apply run_table; [discriminate | exact Ht | |].
  - apply atmospheric_table_NoDup.
  - repeat (apply Forall_cons; split; [apply CS_ENUMF_lt |]). apply Forall_nil_2.
Qed.

(** What the species loop leaves of the three direct mappings. *)
Lemma atmo_lookups_kept st3 st' :
  (forall e h, (e, h) ∈ atmo_table -> CS_FI_ st3 e 0 = Done h) ->
  same_elsewhere chem st3 st' ->
  forall e h, (e, h) ∈ atmo_table -> CS_FI_ st' e 0 = Done h.
Proof.
  intros L F e h Hin.
  assert (Hne : e <> chem).
  { intros ->. apply chem_not_in_atmo_table.
    apply (list_elem_of_fmap_2 fst _ (chem, h)). exact Hin. }
  destruct (F e Hne) as (_ & _ & F3). rewrite F3. now apply L.
Qed.

Lemma frame_after_prefix (st st3 st' : globals) :
  (forall e, e ∉ (fst <$> atmo_table) ->
     load_slot st3 (Z.of_nat e) = load_slot (ensured N st) (Z.of_nat e) /\
     load_size st3 (Z.of_nat e) = load_size (ensured N st) (Z.of_nat e) /\
     forall i, CS_FI_ st3 e i = CS_FI_ (ensured N st) e i) ->
  same_elsewhere chem st3 st' ->
  forall e, e ∉ (fst <$> atmo_table) -> e <> chem ->
    load_slot st' (Z.of_nat e) = load_slot (ensured N st) (Z.of_nat e) /\
    load_size st' (Z.of_nat e) = load_size (ensured N st) (Z.of_nat e) /\
    forall i, CS_FI_ st' e i = CS_FI_ (ensured N st) e i.
Proof.
  intros F3 F e Hn Hne.
  destruct (F3 e Hn) as (A1 & A2 & A3), (F e Hne) as (B1 & B2 & B3).
  split; [congruence |]. split; [congruence |].
  intros i. now rewrite B3, A3.
Qed.

(** X12. No species: with [n_chem_species <= 0], [map_atmospheric] on any
    state reached within the [short] range succeeds whatever the array of
    species ids holds (it is not read, and no field is looked up by id);
    the three named fields can be looked up at sub-index 0 of their
    enumerators, and every other slot, the chemistry slot included, reads
    as it did once the registry was initialised. *)
Theorem X12_map_atmospheric_no_species (st : globals) (n : Z) (ids : list Z) :
  reachable_short N st -> n <= 0 ->
  exists st',
    cs_field_pointer_map_atmospheric N CS_ENUMF_ cs_field_by_name_try
      cs_field_by_id n ids st = Done st' /\
    (forall e h, (e, h) ∈ atmo_table -> CS_FI_ st' e 0 = Done h) /\
    (forall e, e ∉ (fst <$> atmo_table) ->
       load_slot st' (Z.of_nat e) = load_slot (ensured N st) (Z.of_nat e) /\
       load_size st' (Z.of_nat e) = load_size (ensured N st) (Z.of_nat e) /\
       forall i, CS_FI_ st' e i = CS_FI_ (ensured N st) e i) /\
    chem ∉ (fst <$> atmo_table).
Proof.
  intros Hr Hn. apply reachable_short_tight in Hr.
  destruct (atmospheric_prefix st Hr) as (st3 & E3 & _ & _ & L3 & F3).
  rewrite map_atmospheric_run, E3. cbn [bind].
  replace (Z.to_nat (n - 0)) with 0%nat by lia.
  exists st3. split; [reflexivity |]. split; [exact L3 |].
  split; [exact F3 | exact chem_not_in_atmo_table].
Qed.

(** X13. [map_atmospheric] on a chemistry slot that is not yet expanded:
    if every one of the [n <= SHRT_MAX] species ids is present in the
    array and names a field, the call succeeds; the three named fields
    can be looked up at sub-index 0 of their enumerators, the lookup of
    the chemistry slot at each [i < n] returns the field of species [i],
    the width of the chemistry slot is [n] (for [n >= 1]), and every
    other slot reads as it did once the registry was initialised. *)
Theorem X13_map_atmospheric_fresh_slot (st : globals) (n w : Z) (ids : list Z) :
  reachable_short N st ->
  load_size (ensured N st) (Z.of_nat chem) = Done w -> w <= 1 ->
  1 <= n <= SHRT_MAX ->
  (forall i : nat, Z.of_nat i < n ->
     exists id h, ids !! i = Some id /\ cs_field_by_id id = Done h) ->
  exists st',
    cs_field_pointer_map_atmospheric N CS_ENUMF_ cs_field_by_name_try
      cs_field_by_id n ids st = Done st' /\
    (forall e h, (e, h) ∈ atmo_table -> CS_FI_ st' e 0 = Done h) /\
    (forall (i : nat) id, Z.of_nat i < n -> ids !! i = Some id ->
       CS_FI_ st' chem (Z.of_nat i) = cs_field_by_id id) /\
    load_size st' (Z.of_nat chem) = Done n /\
    (forall e, e ∉ (fst <$> atmo_table) -> e <> chem ->
       load_slot st' (Z.of_nat e) = load_slot (ensured N st) (Z.of_nat e) /\
       load_size st' (Z.of_nat e) = load_size (ensured N st) (Z.of_nat e) /\
       forall i, CS_FI_ st' e i = CS_FI_ (ensured N st) e i).
Proof.
  intros Hr Hw Hw1 Hn Hids. apply reachable_short_tight in Hr.
  destruct (atmospheric_prefix st Hr) as (st3 & E3 & Ht3 & Hi3 & L3 & F3).
  rewrite map_atmospheric_run, E3. cbn [bind].
  destruct (F3 chem chem_not_in_atmo_table) as (C1 & C2 & _).
  rewrite <- C2 in Hw.
  pose proof (inv_tight_sound N _ Ht3) as Hs3.
  destruct (init_view N slot_tight _ _ _ Ht3 Hw)
    as (fp & ss & s & _ & _ & _ & _ & _ & _ & _ & _ & Hts & Hls).
  assert (Hp : p s = own_f).
  { unfold slot_tight in Hts. destruct (p s); [reflexivity | lia | contradiction]. }
  destruct (Hids 0%nat ltac:(lia)) as (id0 & h0 & Hid0 & Hby0).
  destruct (Z.to_nat (n - 0)) as [|k] eqn:Hk; [lia |].
  cbn [_species_loop]. change 0 with (Z.of_nat 0) at 1.
  rewrite (rd_const_nat _ _ _ Hid0). cbn [bind]. rewrite Hby0. cbn [bind].
  destruct (map_on_narrow_width N st3 chem w s h0 Hs3 Hw Hls Hw1)
    as (st4 & E4 & V1 & V2 & V3).
  unfold cs_field_pointer_map in E4. simpl Z.of_nat. rewrite E4. cbn [bind].
  assert (Ht4 : registry_inv N slot_tight st4).
  { eapply (exec_tight N (map_indexed chem 0 h0)); [reflexivity | exact Ht3 | exact E4]. }
  destruct (map_indexed_frame N _ _ _ _ _ Hs3 Hi3 E4) as (_ & _ & _ & F4).
  assert (H04 : CS_FI_ st4 chem 0 = Done h0).
  { rewrite V3. unfold p_load. simpl. now rewrite Hp. }
  destruct (species_loop_spec k 1 st4 1 h0 ids Ht4 V2) as
    (st' & E & _ & W & _ & L & _ & Z0 & F); try lia.
  { eexists. split; [exact V1 | reflexivity]. }
  { intros i Hi. apply Hids. lia. }
  change (0 + 1) with (Z.of_nat 1). rewrite E.
  exists st'. split; [reflexivity |].
  pose proof (same_elsewhere_trans _ _ _ _ F4 F) as F34.
  split; [eapply atmo_lookups_kept; eauto |]. split.
  { intros i id Hi Hid. destruct i as [|i].
    - assert (id = id0) by congruence. subst id. rewrite Hby0.
      change (Z.of_nat 0) with 0. rewrite Z0.
      destruct (decide (1 < Z.of_nat (1 + k))); [reflexivity | exact H04].
    - apply L; [lia | exact Hid]. }
  split; [rewrite W; f_equal; lia |].
  eapply frame_after_prefix; eauto.
Qed.

(** X14. [map_atmospheric] on a chemistry slot that is already expanded
    (width [w > 1], direct field [f s]): the call succeeds, the lookup of
    the chemistry slot at each [1 <= i < n] returns the field of species
    [i], the width becomes [max(w, n)] and the positions from [n] up to
    [w] keep their handles. Position 0 holds the field of species 0 only
    if the slot did not have to grow ([n <= w]); if it grew ([w < n]),
    position 0 holds the former direct field [f s] instead. *)
Theorem X14_map_atmospheric_expanded_slot (st : globals) (n w : Z)
    (ids : list Z) (s : cs_field_pointer_array_t) :
  reachable_short N st ->
  load_size st (Z.of_nat chem) = Done w ->
  load_slot st (Z.of_nat chem) = Done s ->
  1 < w -> 1 <= n <= SHRT_MAX ->
  (forall i : nat, Z.of_nat i < n ->
     exists id h, ids !! i = Some id /\ cs_field_by_id id = Done h) ->
  exists st',
    cs_field_pointer_map_atmospheric N CS_ENUMF_ cs_field_by_name_try
      cs_field_by_id n ids st = Done st' /\
    (forall (i : nat) id, (1 <= i)%nat -> Z.of_nat i < n -> ids !! i = Some id ->
       CS_FI_ st' chem (Z.of_nat i) = cs_field_by_id id) /\
    (forall id, ids !! 0%nat = Some id ->
       CS_FI_ st' chem 0
       = if decide (w < n) then Done (f s) else cs_field_by_id id) /\
    load_size st' (Z.of_nat chem) = Done (Z.max w n) /\
    (forall i, n <= i < w -> CS_FI_ st' chem i = CS_FI_ st chem i).
Proof.
  intros Hr Hw Hs Hw1 Hn Hids.
  pose proof (reachable_sound N _ (reachable_short_reachable N _ Hr)) as Hsd.
  pose proof (readable_initialized _ _ _ Hsd Hw) as Hinit.
  apply reachable_short_tight in Hr.
  destruct (atmospheric_prefix st Hr) as (st3 & E3 & Ht3 & Hi3 & L3 & F3).
  rewrite (ensured_id N st Hinit) in F3.
  rewrite map_atmospheric_run, E3. cbn [bind].
  destruct (F3 chem chem_not_in_atmo_table) as (C1 & C2 & C3).
  rewrite <- C2 in Hw. rewrite <- C1 in Hs.
  pose proof (inv_tight_sound N _ Ht3) as Hs3.
  destruct (Hids 0%nat ltac:(lia)) as (id0 & h0 & Hid0 & Hby0).
  destruct (Z.to_nat (n - 0)) as [|k] eqn:Hk; [lia |].
  cbn [_species_loop]. change 0 with (Z.of_nat 0) at 1.
  rewrite (rd_const_nat _ _ _ Hid0). cbn [bind]. rewrite Hby0. cbn [bind].
  destruct (step_inplace N st3 chem w 0 h0 Hs3 Hw Hw1 ltac:(lia))
    as (st4 & s0 & a & Hs0 & Hpa & Hl & E4 & _ & V1 & V2 & V3 & V4).
  assert (s0 = s) by congruence. subst s0.
  simpl Z.of_nat. rewrite E4. cbn [bind].
  assert (Ht4 : registry_inv N slot_tight st4).
  { eapply (exec_tight N (map_indexed chem 0 h0)); [reflexivity | exact Ht3 | exact E4]. }
  assert (H04 : CS_FI_ st4 chem 0 = Done h0).
  { rewrite V3. apply rd_Z; [lia |]. apply list_lookup_insert_eq. exact Hl. }
  destruct (species_loop_spec k 1 st4 w (f s) ids Ht4 V1) as
    (st' & E & _ & W & _ & L & K & Z0 & F); try lia.
  { eexists. split; [exact V2 | reflexivity]. }
  { intros i Hi. apply Hids. lia. }
  change (0 + 1) with (Z.of_nat 1). rewrite E.
  exists st'. split; [reflexivity |]. split.
  { intros i id H1 Hi Hid. apply L; [lia | exact Hid]. }
  split.
  { intros id Hid. assert (id = id0) by congruence. subst id.
    rewrite Z0, Hby0.
    destruct (decide (w < Z.of_nat (1 + k))), (decide (w < n));
      try lia; [reflexivity | exact H04]. }
  split; [rewrite W; f_equal; lia |].
  intros i Hi. rewrite K by lia. rewrite V3, <- C3, V4.
  apply rd_insert_ne; lia.
Qed.

End HelperFacts.

(** ** The further properties at concrete registries *)

Lemma demo_enumf_inj : forall a b, demo_enumf a = demo_enumf b -> a = b.
Proof. intros [] [] H; (reflexivity || discriminate H). Qed.

Lemma demo_enumf_lt : forall a, (demo_enumf a < 20)%nat.
Proof. intros []; simpl; lia. Qed.

Lemma demo_ids_valid (ids : list Z) (n : Z) :
  Forall (fun id => 0 <= id) ids -> n <= Z.of_nat (length ids) ->
  forall i : nat, Z.of_nat i < n ->
    exists id h, ids !! i = Some id /\ demo_by_id id = Done h.
Proof.
  intros Hall Hn i Hi.
  destruct (lookup_lt_is_Some_2 ids i) as [id Hid]; [lia |].
  exists id, (field_ref (Z.to_nat id)). split; [exact Hid |].
  pose proof (Forall_lookup_1 _ _ _ _ Hall Hid) as H0. simpl in H0.
  unfold demo_by_id. destruct (Z.leb_spec 0 id); [reflexivity | lia].
Qed.

Lemma X1_witness :
  reachable 10 st_direct /\
  cs_field_pointer_map_indexed 10 0 1 (field_ref 2) st_direct
    = Done st_remapped_step /\
  1%nat <> 0%nat /\
  load_slot st_remapped_step (Z.of_nat 1)
    = load_slot (ensured 10 st_direct) (Z.of_nat 1) /\
  load_size st_remapped_step (Z.of_nat 1)
    = load_size (ensured 10 st_direct) (Z.of_nat 1) /\
  (forall i, CS_FI_ st_remapped_step 1 i = CS_FI_ (ensured 10 st_direct) 1 i) /\
  _n_pointers st_remapped_step = _n_pointers (ensured 10 st_direct) /\
  cs_glob_field_pointers st_remapped_step
    = cs_glob_field_pointers (ensured 10 st_direct).
Proof.
  assert (H1 : reachable 10 st_direct).
  { exists [map 0 (field_ref 1)]. reflexivity. }
  assert (H2 : cs_field_pointer_map_indexed 10 0 1 (field_ref 2) st_direct
               = Done st_remapped_step) by reflexivity.
  assert (H3 : 1%nat <> 0%nat) by discriminate.
  split; [exact H1 |]. split; [exact H2 |]. split; [exact H3 |].
  exact (X1_map_indexed_frame 10 st_direct st_remapped_step 1 0 1 (field_ref 2)
           H1 H2 H3).
Defined.

Lemma X2_witness :
  reachable 10 st_expanded_later /\
  load_size st_expanded_later (Z.of_nat 0) = Done 5 /\
  1 < 5 /\ 0 <= 2 < 5 /\
  exists st' s s',
    cs_field_pointer_map_indexed 10 0 2 (field_ref 7) st_expanded_later
      = Done st' /\
    load_size st' (Z.of_nat 0) = Done 5 /\
    CS_FI_ st' 0 2 = Done (field_ref 7) /\
    (forall i, i <> 2 -> CS_FI_ st' 0 i = CS_FI_ st_expanded_later 0 i) /\
    load_slot st_expanded_later (Z.of_nat 0) = Done s /\
    load_slot st' (Z.of_nat 0) = Done s' /\
    f s' = f s /\ heap_length s' = heap_length s.
Proof.
  assert (H1 : reachable 10 st_expanded_later).
  { exists [map_indexed 0 1 (field_ref 1); map 0 (field_ref 3);
            map_indexed 0 4 (field_ref 4)]. reflexivity. }
  assert (H2 : load_size st_expanded_later (Z.of_nat 0) = Done 5) by reflexivity.
  assert (H3 : 1 < 5) by lia.
  assert (H4 : 0 <= 2 < 5) by lia.
  split; [exact H1 |]. split; [exact H2 |]. split; [exact H3 |].
  split; [exact H4 |].
  exact (X2_overwrite_in_place 10 st_expanded_later 0 5 2 (field_ref 7)
           H1 H2 H3 H4).
Defined.

Lemma X3_witness :
  forallb is_direct [map 0 (field_ref 1)] = true /\
  run 10 [map 0 (field_ref 1)] startup = Done st_direct /\
  initialized st_direct /\ (3 < 10)%nat /\
  exists sz s,
    load_size st_direct (Z.of_nat 3) = Done sz /\
    load_slot st_direct (Z.of_nat 3) = Done s /\
    sz <= 1 /\ inline s.
Proof.
  assert (H1 : forallb is_direct [map 0 (field_ref 1)] = true) by reflexivity.
  assert (H2 : run 10 [map 0 (field_ref 1)] startup = Done st_direct)
    by reflexivity.
  assert (H3 : initialized st_direct) by discriminate.
  assert (H4 : (3 < 10)%nat) by lia.
  split; [exact H1 |]. split; [exact H2 |]. split; [exact H3 |].
  split; [exact H4 |].
  exact (X3_index_0_never_expands 10 _ st_direct 3 H1 H2 H3 H4).
Defined.

Lemma X4_witness :
  reachable 10 st_direct /\
  load_size st_direct (Z.of_nat 0) = Done 1 /\
  0 <= 1 <= 4 /\ 0 <= 2 < 4 /\ 4 < SHRT_MAX /\
  exists st1 st2,
    cs_field_pointer_map_indexed 10 0 4 (field_ref 8) st_direct = Done st1 /\
    cs_field_pointer_map_indexed 10 0 2 (field_ref 7) st1 = Done st2 /\
    CS_FI_ st2 0 4 = Done (field_ref 8) /\
    CS_FI_ st2 0 2 = Done (field_ref 7) /\
    load_size st2 (Z.of_nat 0) = Done (4 + 1).
Proof.
  assert (H1 : reachable 10 st_direct).
  { exists [map 0 (field_ref 1)]. reflexivity. }
  assert (H2 : load_size st_direct (Z.of_nat 0) = Done 1) by reflexivity.
  assert (H3 : 0 <= 1 <= 4) by lia.
  assert (H4 : 0 <= 2 < 4) by lia.
  assert (H5 : 4 < SHRT_MAX) by (unfold SHRT_MAX; lia).
  split; [exact H1 |]. split; [exact H2 |]. split; [exact H3 |].
  split; [exact H4 |]. split; [exact H5 |].
  exact (X4_out_of_order_mapping 10 st_direct 0 1 2 4 (field_ref 7) (field_ref 8)
           H1 H2 H3 H4 H5).
Defined.

Lemma X5_witness :
  reachable 10 st_expanded /\
  (initialized st_expanded
   <-> cs_glob_field_pointers st_expanded = glob_field_pointer) /\
  (_field_pointer st_expanded = None <-> _sublist_size st_expanded = None) /\
  (initialized st_expanded ->
     _n_pointers st_expanded = Z.of_nat 10 /\
     (exists fp, _field_pointer st_expanded = Some fp /\ length fp = 10%nat) /\
     (exists ss, _sublist_size st_expanded = Some ss /\ length ss = 10%nat)).
Proof.
  assert (H1 : reachable 10 st_expanded).
  { exists [map_indexed 0 1 (field_ref 1)]. reflexivity. }
  split; [exact H1 |].
  exact (X5_pointers_agree 10 st_expanded H1).
Defined.

Lemma X6_witness :
  reachable 10 st_expanded /\ initialized st_expanded /\
  exists st1,
    cs_field_pointer_destroy_all st_expanded = Done st1 /\
    _n_pointers st1 = Z.of_nat 10 /\
    cs_field_pointer_destroy_all st1
    = (if decide (10%nat = 0%nat) then Done st1 else Abort null_pointer).
Proof.
  assert (H1 : reachable 10 st_expanded).
  { exists [map_indexed 0 1 (field_ref 1)]. reflexivity. }
  assert (H2 : initialized st_expanded) by discriminate.
  split; [exact H1 |]. split; [exact H2 |].
  exact (X6_second_destroy_faults 10 st_expanded H1 H2).
Defined.

Lemma X7_witness :
  reachable_short 10 st_expanded /\ initialized st_expanded /\ (0 < 10)%nat /\
  exists sz,
    load_size st_expanded (Z.of_nat 0) = Done sz /\
    (0 <= 1 < Z.max sz 1 -> exists h, CS_FI_ st_expanded 0 1 = Done h) /\
    (1 < 0 \/ Z.max sz 1 <= 1 -> CS_FI_ st_expanded 0 1 = Abort out_of_bounds).
Proof.
  assert (H1 : reachable_short 10 st_expanded).
  { exists [map_indexed 0 1 (field_ref 1)]. split; reflexivity. }
  assert (H2 : initialized st_expanded) by discriminate.
  assert (H3 : (0 < 10)%nat) by lia.
  split; [exact H1 |]. split; [exact H2 |]. split; [exact H3 |].
  exact (X7_lookup_domain 10 st_expanded 0 1 H1 H2 H3).
Defined.

Lemma X8_witness :
  reachable 10 st_expanded /\
  load_size st_expanded (Z.of_nat 0) = Done 2 /\
  load_slot st_expanded (Z.of_nat 0)
    = Done {| f := nullptr; p := heap [Some nullptr; Some (field_ref 1)] |} /\
  1 < 2 /\ 2 <= 3 < INT_MAX /\
  exists st1 st2,
    cs_field_pointer_map_indexed 10 0 0 (field_ref 7) st_expanded = Done st1 /\
    CS_FI_ st1 0 0 = Done (field_ref 7) /\
    cs_field_pointer_map_indexed 10 0 3 (field_ref 8) st1 = Done st2 /\
    CS_FI_ st2 0 0 = Done nullptr.
Proof.
  assert (H1 : reachable 10 st_expanded).
  { exists [map_indexed 0 1 (field_ref 1)]. reflexivity. }
  assert (H2 : load_size st_expanded (Z.of_nat 0) = Done 2) by reflexivity.
  assert (H3 : load_slot st_expanded (Z.of_nat 0)
               = Done {| f := nullptr;
                         p := heap [Some nullptr; Some (field_ref 1)] |})
    by reflexivity.
  assert (H4 : 1 < 2) by lia.
  assert (H5 : 2 <= 3 < INT_MAX) by (unfold INT_MAX; lia).
  split; [exact H1 |]. split; [exact H2 |]. split; [exact H3 |].
  split; [exact H4 |]. split; [exact H5 |].
  exact (X8_growth_restores_direct_field 10 st_expanded 0 2 3 _
           (field_ref 7) (field_ref 8) H1 H2 H3 H4 H5).
Defined.

Lemma X9_witness :
  reachable 10 st_direct /\
  load_size st_direct (Z.of_nat 0) = Done 1 /\
  0 <= 1 <= 40000 /\ SHRT_MAX <= 40000 < 65535 /\
  exists st',
    cs_field_pointer_map_indexed 10 0 40000 (field_ref 2) st_direct = Done st' /\
    load_size st' (Z.of_nat 0) = Done (40000 + 1 - 65536) /\
    (exists s', load_slot st' (Z.of_nat 0) = Done s' /\
                heap_length s' = Some (40000 + 1)) /\
    forall index' h', 0 < index' < INT_MAX ->
      cs_field_pointer_map_indexed 10 0 index' h' st' = Abort out_of_bounds.
Proof.
  assert (H1 : reachable 10 st_direct).
  { exists [map 0 (field_ref 1)]. reflexivity. }
  assert (H2 : load_size st_direct (Z.of_nat 0) = Done 1) by reflexivity.
  assert (H3 : 0 <= 1 <= 40000) by lia.
  assert (H4 : SHRT_MAX <= 40000 < 65535) by (unfold SHRT_MAX; lia).
  split; [exact H1 |]. split; [exact H2 |]. split; [exact H3 |].
  split; [exact H4 |].
  exact (X9_width_overflow 10 st_direct 0 1 40000 (field_ref 2) H1 H2 H3 H4).
Defined.

Lemma X10_witness :
  reachable_short 20 startup /\
  exists st',
    cs_field_pointer_map_base 20 demo_enumf demo_by_name startup = Done st' /\
    (forall e h, (e, h) ∈ base_table demo_enumf demo_by_name ->
       CS_FI_ st' e 0 = Done h) /\
    (forall e, e ∉ (fst <$> base_table demo_enumf demo_by_name) ->
       load_slot st' (Z.of_nat e) = load_slot (ensured 20 startup) (Z.of_nat e) /\
       load_size st' (Z.of_nat e) = load_size (ensured 20 startup) (Z.of_nat e) /\
       forall i, CS_FI_ st' e i = CS_FI_ (ensured 20 startup) e i).
Proof.
  assert (H1 : reachable_short 20 startup).
  { exists []. split; reflexivity. }
  split; [exact H1 |].
  exact (X10_map_base 20 demo_enumf demo_by_name demo_enumf_inj demo_enumf_lt
           startup H1).
Defined.

Lemma X11_witness :
  reachable_short 20 st_chem /\
  exists st',
    cs_field_pointer_map_boundary 20 demo_enumf demo_by_name st_chem = Done st' /\
    CS_FI_ st' (demo_enumf Enumf.t_b) 0
      = Done (demo_by_name "boundary_temperature"%string) /\
    same_elsewhere (demo_enumf Enumf.t_b) (ensured 20 st_chem) st'.
Proof.
  assert (H1 : reachable_short 20 st_chem).
  { exists [map_indexed 14 0 (field_ref 5); map_indexed 14 1 (field_ref 6)].
    split; reflexivity. }
  split; [exact H1 |].
  exact (X11_map_boundary 20 demo_enumf demo_by_name demo_enumf_lt st_chem H1).
Defined.

Lemma X12_witness :
  reachable_short 20 st_chem /\ -1 <= 0 /\
  exists st',
    cs_field_pointer_map_atmospheric 20 demo_enumf demo_by_name demo_by_id
      (-1) [] st_chem = Done st' /\
    (forall e h, (e, h) ∈ atmospheric_table demo_enumf demo_by_name ->
       CS_FI_ st' e 0 = Done h) /\
    (forall e, e ∉ (fst <$> atmospheric_table demo_enumf demo_by_name) ->
       load_slot st' (Z.of_nat e) = load_slot (ensured 20 st_chem) (Z.of_nat e) /\
       load_size st' (Z.of_nat e) = load_size (ensured 20 st_chem) (Z.of_nat e) /\
       forall i, CS_FI_ st' e i = CS_FI_ (ensured 20 st_chem) e i) /\
    demo_enumf Enumf.chemistry
      ∉ (fst <$> atmospheric_table demo_enumf demo_by_name).
Proof.
  assert (H1 : reachable_short 20 st_chem).
  { exists [map_indexed 14 0 (field_ref 5); map_indexed 14 1 (field_ref 6)].
    split; reflexivity. }
  assert (H2 : -1 <= 0) by lia.
  split; [exact H1 |]. split; [exact H2 |].
  exact (X12_map_atmospheric_no_species 20 demo_enumf demo_by_name demo_by_id
           demo_enumf_inj demo_enumf_lt st_chem (-1) [] H1 H2).
Defined.

Lemma X13_witness :
  reachable_short 20 startup /\
  load_size (ensured 20 startup) (Z.of_nat (demo_enumf Enumf.chemistry)) = Done 0 /\
  0 <= 1 /\ 1 <= 3 <= SHRT_MAX /\
  (forall i : nat, Z.of_nat i < 3 ->
     exists id h, [5; 6; 7] !! i = Some id /\ demo_by_id id = Done h) /\
  exists st',
    cs_field_pointer_map_atmospheric 20 demo_enumf demo_by_name demo_by_id
      3 [5; 6; 7] startup = Done st' /\
    (forall e h, (e, h) ∈ atmospheric_table demo_enumf demo_by_name ->
       CS_FI_ st' e 0 = Done h) /\
    (forall (i : nat) id, Z.of_nat i < 3 -> [5; 6; 7] !! i = Some id ->
       CS_FI_ st' (demo_enumf Enumf.chemistry) (Z.of_nat i) = demo_by_id id) /\
    load_size st' (Z.of_nat (demo_enumf Enumf.chemistry)) = Done 3 /\
    (forall e, e ∉ (fst <$> atmospheric_table demo_enumf demo_by_name) ->
       e <> demo_enumf Enumf.chemistry ->
       load_slot st' (Z.of_nat e) = load_slot (ensured 20 startup) (Z.of_nat e) /\
       load_size st' (Z.of_nat e) = load_size (ensured 20 startup) (Z.of_nat e) /\
       forall i, CS_FI_ st' e i = CS_FI_ (ensured 20 startup) e i).
Proof.
  assert (H1 : reachable_short 20 startup).
  { exists []. split; reflexivity. }
  assert (H2 : load_size (ensured 20 startup)
                 (Z.of_nat (demo_enumf Enumf.chemistry)) = Done 0) by reflexivity.
  assert (H3 : 0 <= 1) by lia.
  assert (H4 : 1 <= 3 <= SHRT_MAX) by (unfold SHRT_MAX; lia).
  assert (H5 : forall i : nat, Z.of_nat i < 3 ->
            exists id h, [5; 6; 7] !! i = Some id /\ demo_by_id id = Done h).
  { apply demo_ids_valid; [repeat constructor; lia | simpl; lia]. }
  split; [exact H1 |]. split; [exact H2 |]. split; [exact H3 |].
  split; [exact H4 |]. split; [exact H5 |].
  exact (X13_map_atmospheric_fresh_slot 20 demo_enumf demo_by_name demo_by_id
           demo_enumf_inj demo_enumf_lt startup 3 0 [5; 6; 7] H1 H2 H3 H4 H5).
Defined.

Lemma X14_witness :
  reachable_short 20 st_chem /\
  load_size st_chem (Z.of_nat (demo_enumf Enumf.chemistry)) = Done 2 /\
  load_slot st_chem (Z.of_nat (demo_enumf Enumf.chemistry))
    = Done {| f := field_ref 5;
              p := heap [Some (field_ref 5); Some (field_ref 6)] |} /\
  1 < 2 /\ 1 <= 3 <= SHRT_MAX /\
  (forall i : nat, Z.of_nat i < 3 ->
     exists id h, [7; 8; 9] !! i = Some id /\ demo_by_id id = Done h) /\
  exists st',
    cs_field_pointer_map_atmospheric 20 demo_enumf demo_by_name demo_by_id
      3 [7; 8; 9] st_chem = Done st' /\
    (forall (i : nat) id, (1 <= i)%nat -> Z.of_nat i < 3 ->
       [7; 8; 9] !! i = Some id ->
       CS_FI_ st' (demo_enumf Enumf.chemistry) (Z.of_nat i) = demo_by_id id) /\
    (forall id, [7; 8; 9] !! 0%nat = Some id ->
       CS_FI_ st' (demo_enumf Enumf.chemistry) 0
       = if decide (2 < 3) then Done (field_ref 5) else demo_by_id id) /\
    load_size st' (Z.of_nat (demo_enumf Enumf.chemistry)) = Done (Z.max 2 3) /\
    (forall i, 3 <= i < 2 ->
       CS_FI_ st' (demo_enumf Enumf.chemistry) i
       = CS_FI_ st_chem (demo_enumf Enumf.chemistry) i).
Proof.
  assert (H1 : reachable_short 20 st_chem).
  { exists [map_indexed 14 0 (field_ref 5); map_indexed 14 1 (field_ref 6)].
    split; reflexivity. }
  assert (H2 : load_size st_chem (Z.of_nat (demo_enumf Enumf.chemistry))
               = Done 2) by reflexivity.
  assert (H3 : load_slot st_chem (Z.of_nat (demo_enumf Enumf.chemistry))
               = Done {| f := field_ref 5;
                         p := heap [Some (field_ref 5); Some (field_ref 6)] |})
    by reflexivity.
  assert (H4 : 1 < 2) by lia.
  assert (H5 : 1 <= 3 <= SHRT_MAX) by (unfold SHRT_MAX; lia).
  assert (H6 : forall i : nat, Z.of_nat i < 3 ->
            exists id h, [7; 8; 9] !! i = Some id /\ demo_by_id id = Done h).
  { apply demo_ids_valid; [repeat constructor; lia | simpl; lia]. }
  split; [exact H1 |]. split; [exact H2 |]. split; [exact H3 |].
  split; [exact H4 |]. split; [exact H5 |]. split; [exact H6 |].
  exact (X14_map_atmospheric_expanded_slot 20 demo_enumf demo_by_name demo_by_id
           demo_enumf_inj demo_enumf_lt st_chem 3 2 [7; 8; 9] _
           H1 H2 H3 H4 H5 H6).
Defined.
